(** * Radial fitters of frankenstein: a shallow embedding

    This development embeds [frankenstein/radial_fitters.py] -- the posterior
    solver [HankelRegressor], the design-matrix builder
    [FourierBesselFitter._build_matrices] and the power-spectrum iteration
    [FrankFitter.fit] -- and proves properties of the embedded program.

    Conventions.
    - numpy's floating-point scalars are read as the elements of an ordered
      field [R : realFieldType] (exact arithmetic): the development speaks
      about what the program computes up to rounding.  Division is the
      field's, so the model is faithful where the program does not divide
      by zero.
    - one-dimensional arrays of the basis size [N] are column vectors
      ['cV[R]_N], two-dimensional ones are matrices ['M[R]_N]; the data arrays
      [q], [V], [weights], whose length is the number of visibilities, are
      sequences.
    - Python exceptions are values of [PyError]; a computation returns a
      [result].  The two [while] loops are written with a fuel argument, and
      the lemmas give the fuel that is enough.
    - the routines of numpy and scipy that the program calls (Cholesky
      factorisation and solve, singular value decomposition, sparse solve,
      [exp], [log]) are the fields of a record the model is parametrised by. *)

From HB Require Import structures.
From mathcomp Require Import ssreflect ssrfun ssrbool eqtype ssrnat div seq choice.
From mathcomp Require Import fintype bigop order ssralg ssrnum ssrint rat matrix.
From Stdlib Require Import String.

Set Implicit Arguments.
Unset Strict Implicit.
Unset Printing Implicit Defensive.

Import Order.TTheory GRing.Theory Num.Theory.
Local Open Scope ring_scope.

(** ** Python exceptions and results *)

Inductive PyError : Type :=
  | NameError (name : string)
  | AttributeError (attr : string)
  | TypeError
  | ValueError
  | LinAlgError.

(** [OutOfFuel] is not a Python outcome: it marks a loop that was given too
    little fuel. *)
Inductive result (A : Type) : Type :=
  | Ok (a : A)
  | Raise (e : PyError)
  | OutOfFuel.

Arguments Ok {A} a.
Arguments Raise {A} e.
Arguments OutOfFuel {A}.

Definition bind {A B : Type} (c : result A) (k : A -> result B) : result B :=
  match c with
  | Ok a => k a
  | Raise e => Raise e
  | OutOfFuel => OutOfFuel
  end.

Notation "x <- c ;; k" := (bind c (fun x => k))
  (at level 100, c at next level, right associativity).

Definition is_ok {A : Type} (c : result A) : bool :=
  if c is Ok _ then true else false.

Definition is_raise {A : Type} (c : result A) : bool :=
  if c is Raise _ then true else false.

(** [try: ... except np.linalg.LinAlgError: ...] : only that exception is
    caught, any other one propagates. *)
Definition try_except_LinAlgError {A : Type} (body handler : result A) :
  result A :=
  match body with
  | Raise LinAlgError => handler
  | other => other
  end.

(** ** Names and attributes *)

Definition name_in (x : string) (names : seq string) : bool :=
  has (String.eqb x) names.

(** The names bound at module level in [radial_fitters.py]: the [__future__]
    imports, [np], [scipy], [__all__] and the three classes.  The basis class
    [DiscreteHankelTransform] is used by the constructor but imported
    nowhere; the fitters below take the basis object as given. *)
Definition module_globals : seq string :=
  [:: "__name__"; "__doc__"; "__file__"; "__builtins__";
      "division"; "absolute_import"; "print_function";
      "np"; "scipy"; "__all__";
      "HankelRegressor"; "FourierBesselFitter"; "FrankFitter"]%string.

(** Python's builtin functions and constants. *)
Definition builtins : seq string :=
  [:: "abs"; "all"; "any"; "ascii"; "bin"; "bool"; "bytearray"; "bytes";
      "callable"; "chr"; "classmethod"; "compile"; "complex"; "delattr";
      "dict"; "dir"; "divmod"; "enumerate"; "eval"; "exec"; "filter";
      "float"; "format"; "frozenset"; "getattr"; "globals"; "hasattr";
      "hash"; "help"; "hex"; "id"; "input"; "int"; "isinstance";
      "issubclass"; "iter"; "len"; "list"; "locals"; "map"; "max";
      "memoryview"; "min"; "next"; "object"; "oct"; "open"; "ord"; "pow";
      "print"; "property"; "range"; "repr"; "reversed"; "round"; "set";
      "setattr"; "slice"; "sorted"; "staticmethod"; "str"; "sum"; "super";
      "tuple"; "type"; "vars"; "zip"; "__import__";
      "True"; "False"; "None"; "Ellipsis"; "NotImplemented"]%string.

Section Values.

Variable R : Type.

(** The Python values a name of the fitting methods can be bound to: a
    scalar, a one-dimensional array, or some other object (a module, a class,
    [self]). *)
Inductive pyval : Type :=
  | PyFloat (x : R)
  | PyArray (a : seq R)
  | PyObject (name : string).

Fixpoint lookup_local (x : string) (locals : seq (string * pyval)) :
  option pyval :=
  if locals is (y, v) :: rest then
    if String.eqb x y then Some v else lookup_local x rest
  else None.

(** Loading a bare name: the function's locals first, then the module's
    globals, then the builtins; [NameError] when none binds it. *)
Definition load_name (locals : seq (string * pyval)) (x : string) :
  result pyval :=
  match lookup_local x locals with
  | Some v => Ok v
  | None =>
      if name_in x module_globals || name_in x builtins
      then Ok (PyObject x) else Raise (NameError x)
  end.

End Values.

Arguments PyObject {R} name.

(** ** The numerical model *)

Section Model.

Variable R : realFieldType.

(** The basis has [N = n.+1] collocation points. *)
Variable n : nat.

Notation vec := 'cV[R]_n.+1.
Notation mat := 'M[R]_n.+1.
Notation half := (2%:R^-1 : R).

(** An array handed to [Dsolve]: [b] is "array, size=(N,...)", either a
    vector or an N x N matrix ([np.eye(N)], [Ykm.T], [Sinv]). *)
Inductive ndarray : Type :=
  | Array1 (v : vec)
  | Array2 (m : mat).

(** The routines of scipy and numpy the program calls.  A call of
    [cho_factor] returns a factor or raises: [LinAlgError] on a matrix that is
    not positive definite. *)
Record numerics : Type := Numerics {
  chol : Type;
  cho_factor_call : mat -> PyError + chol;
  cho_solve : forall k : nat, chol -> 'M[R]_(n.+1, k) -> 'M[R]_(n.+1, k);
  svd : mat -> mat * vec * mat;
  slogdet : mat -> R * R;
  spsolve : mat -> vec -> vec;
  np_exp : R -> R;
  np_log : R -> R;
  np_pi : R
}.

(** Modelled from the spec: the Hankel basis [DiscreteHankelTransform], whose
    class is not among the sources.  [coefficients_at q] is the row of the
    basis-coefficient matrix for the frequency [q] ([coefficients(qs)] has one
    such row per entry of [qs]), [coefficients] is the matrix at the basis's
    own frequency grid ([coefficients()]), and [DHT_q] is that grid. *)
Record DiscreteHankelTransform : Type := DHT {
  coefficients_at : R -> 'rV[R]_n.+1;
  coefficients : mat;
  DHT_q : vec
}.

Variable K : numerics.

Definition cho_factor (A : mat) : result (chol K) :=
  match cho_factor_call K A with
  | inr c => Ok c
  | inl e => Raise e
  end.

(** *** HankelRegressor *)

Record HankelRegressor : Type := mkHankelRegressor {
  _DHT : DiscreteHankelTransform;
  _M : mat;
  _j : vec;
  _p : option vec;
  _Sinv : option mat;
  _like_noise : R;
  _Dchol : option (chol K);
  _Dsvd : option (mat * vec * mat);
  _mu : vec;
  _cov : option ndarray
}.

(** [np.where(x > 0, 1./x, 0)] *)
Definition where_pos_inv (x : vec) : vec :=
  \col_i (if 0 < x i 0 then 1 / x i 0 else 0).

(** [np.einsum('ji,j,jk->ik', Ykm, p1, Ykm)] *)
Definition einsum_ji_j_jk (Ykm : mat) (p1 : vec) : mat :=
  \matrix_(i, k) \sum_j Ykm j i * p1 j 0 * Ykm j k.

(** The prior precision built by [__init__] from a power spectrum [p]. *)
Definition prior_precision (dht : DiscreteHankelTransform) (p : vec) : mat :=
  let Ykm := coefficients dht in
  let p1 := where_pos_inv p in
  einsum_ji_j_jk Ykm p1.

(** [np.dot(A, b)], [np.multiply(b, s1)] and [cho_solve(c, b)] for the two
    shapes of [b].  [np.multiply] broadcasts the vector [s1] along the last
    axis: entry [(i, k)] of a matrix is multiplied by [s1[k]]. *)
Definition np_dot (A : mat) (b : ndarray) : ndarray :=
  match b with
  | Array1 v => Array1 (A *m v)
  | Array2 m => Array2 (A *m m)
  end.

Definition np_multiply (b : ndarray) (s1 : vec) : ndarray :=
  match b with
  | Array1 v => Array1 (\col_i (v i 0 * s1 i 0))
  | Array2 m => Array2 (\matrix_(i, k) (m i k * s1 k 0))
  end.

Definition cho_solve_nd (c : chol K) (b : ndarray) : ndarray :=
  match b with
  | Array1 v => Array1 (cho_solve c v)
  | Array2 m => Array2 (cho_solve c m)
  end.

(** [np.dot(V.T, np.multiply(np.dot(U.T, b), s1))] *)
Definition svd_solve (U : mat) (s1 : vec) (V : mat) (b : ndarray) : ndarray :=
  np_dot V^T (np_multiply (np_dot U^T b) s1).

Definition vec_of (b : ndarray) : vec :=
  match b with
  | Array1 v => v
  | Array2 m => col 0 m
  end.

(** [_fit]: the posterior precision [Dinv = M + Sinv] is factorised and the
    mean is computed; the attributes [_Dchol], [_Dsvd], [_mu] and [_cov] of
    [self] are set. *)
Definition set_fit (self : HankelRegressor) (Dchol : option (chol K))
    (Dsvd : option (mat * vec * mat)) (mu : vec) : HankelRegressor :=
  {| _DHT := _DHT self; _M := _M self; _j := _j self; _p := _p self;
     _Sinv := _Sinv self; _like_noise := _like_noise self;
     _Dchol := Dchol; _Dsvd := Dsvd; _mu := mu; _cov := None |}.

Definition posterior_precision (self : HankelRegressor) : mat :=
  let Sinv := if _Sinv self is Some Sinv0 then Sinv0 else 0 in
  _M self + Sinv.

Definition HankelRegressor_fit (self : HankelRegressor) :
  result HankelRegressor :=
  let Dinv := posterior_precision self in
  try_except_LinAlgError
    (Dchol <- cho_factor Dinv ;;
     Ok (set_fit self (Some Dchol) None (cho_solve Dchol (_j self))))
    (let '(U, s, V) := svd K Dinv in
     let s1 := where_pos_inv s in
     Ok (set_fit self None (Some (U, s1, V))
           (vec_of (svd_solve U s1 V (Array1 (_j self)))))).

(** [__init__(self, DHT, M, j, p=None, noise_likelihood=0)].  The attributes
    that [_fit] sets are absent until it has run; the record holds [None]
    (and a zero mean) for them in between. *)
Definition HankelRegressor_init (dht : DiscreteHankelTransform) (M : mat)
    (j : vec) (p : option vec) (noise_likelihood : R) :
  result HankelRegressor :=
  let Sinv := if p is Some p' then Some (prior_precision dht p') else None in
  HankelRegressor_fit
    {| _DHT := dht; _M := M; _j := j; _p := p; _Sinv := Sinv;
       _like_noise := noise_likelihood;
       _Dchol := None; _Dsvd := None; _mu := 0; _cov := None |}.

(** [Dsolve(b)]: the cached factorisation is applied to [b].  Unpacking
    [self._Dsvd] when it is [None] is a [TypeError]. *)
Definition Dsolve (self : HankelRegressor) (b : ndarray) : result ndarray :=
  match _Dchol self with
  | Some c => Ok (cho_solve_nd c b)
  | None =>
      match _Dsvd self with
      | Some (U, s1, V) => Ok (svd_solve U s1 V b)
      | None => Raise TypeError
      end
  end.

Definition mean (self : HankelRegressor) : vec := _mu self.

Definition power_spectrum (self : HankelRegressor) : option vec := _p self.

(** The [covariance] property: computed by [Dsolve(np.eye(N))] on first
    access and stored in [_cov]; the stored value is returned afterwards. *)
Definition covariance (self : HankelRegressor) :
  result (ndarray * HankelRegressor) :=
  match _cov self with
  | Some c => Ok (c, self)
  | None =>
      c <- Dsolve self (Array2 1%:M) ;;
      Ok (c, {| _DHT := _DHT self; _M := _M self; _j := _j self;
                _p := _p self; _Sinv := _Sinv self;
                _like_noise := _like_noise self; _Dchol := _Dchol self;
                _Dsvd := _Dsvd self; _mu := _mu self; _cov := Some c |})
  end.

(** The attributes of a [HankelRegressor] instance: those set by [__init__]
    and [_fit], and the methods and properties of the class. *)
Definition HankelRegressor_attributes : seq string :=
  [:: "_DHT"; "_M"; "_j"; "_p"; "_Sinv"; "_like_noise";
      "_Dchol"; "_Dsvd"; "_mu"; "_cov";
      "__init__"; "_fit"; "Dsolve"; "draw"; "log_likelihood"; "predict";
      "mean"; "covariance"; "power_spectrum"; "r"; "Rmax"; "q"; "Qmax";
      "size"]%string.

(** [self.<name>(b)]: the attribute is looked up, then called with one
    array.  [Dsolve] is the only attribute that is such a method; a name that
    is no attribute raises [AttributeError]. *)
Definition call_method1 (self : HankelRegressor) (name : string)
    (b : ndarray) : result ndarray :=
  if String.eqb name "Dsolve" then Dsolve self b
  else if name_in name HankelRegressor_attributes then Raise TypeError
  else Raise (AttributeError name).

(** [np.linalg.slogdet(Q)[1]] of a two-dimensional array. *)
Definition logabsdet (Q : ndarray) : result R :=
  match Q with
  | Array2 m => Ok (slogdet K m).2
  | Array1 _ => Raise LinAlgError
  end.

Definition vdot (x y : vec) : R := \sum_i x i 0 * y i 0.

(** [log_likelihood(I=None)] *)
Definition log_likelihood (self : HankelRegressor) (I : option vec) :
  result R :=
  like <-
    match I with
    | None =>
        let like := half * vdot (_j self) (_mu self) in
        match _Sinv self with
        | Some Sinv =>
            Q <- call_method1 self "_Dsolve" (Array2 Sinv) ;;
            ld <- logabsdet Q ;;
            Ok (like + half * ld)
        | None => Ok like
        end
    | Some I' =>
        let Dinv := posterior_precision self in
        let like := half * vdot (_j self) I' - half * vdot I' (Dinv *m I') in
        match _Sinv self with
        | Some Sinv =>
            Ok (like + half * (slogdet K ((2%:R * np_pi K) *: Sinv)).2)
        | None => Ok like
        end
    end ;;
  Ok (like + _like_noise self).

(** *** FourierBesselFitter *)

(** The attributes [_M], [_j] and [_H0] are set by [_build_matrices] and
    [_sol] by [fit]; they are absent ([None]) before.  ([F_DHT], [F_M] and
    [F_j] are the fitter's [_DHT], [_M] and [_j].) *)
Record FourierBesselFitter : Type := mkFourierBesselFitter {
  F_DHT : DiscreteHankelTransform;
  _blocking : bool;
  _block_size : int;
  F_M : option mat;
  F_j : option vec;
  _H0 : option R;
  _sol : option HankelRegressor
}.

(** [int(block_size / size + 1)] under true division: the quotient
    [(block_size + size) / size] truncated towards zero. *)
Definition int_div_plus1 (block_size : int) (size : nat) : int :=
  let t := block_size + size%:Z in
  if 0 <= t then (absz t %/ size)%N%:Z else - (absz t %/ size)%N%:Z.

(** Python's slice [a[start:stop]] with integer bounds: a negative bound
    counts from the end, and bounds are clipped to the array. *)
Definition slice_bound (len : nat) (i : int) : nat :=
  if 0 <= i then minn (absz i) len else (len - absz i)%N.

Definition py_slice (T : Type) (a : seq T) (start stop : int) : seq T :=
  let s := slice_bound (size a) start in
  let e := slice_bound (size a) stop in
  take (e - s) (drop s a).

(** [w = np.ones_like(V) * weights]: a scalar weight is repeated, an array is
    multiplied element by element under numpy's broadcasting rule for
    one-dimensional arrays. *)
Definition broadcast_weights (V : seq R) (weights : pyval R) :
  result (seq R) :=
  match weights with
  | PyFloat x => Ok [seq 1 * x | _ <- V]
  | PyArray a =>
      if size a == size V then Ok [seq 1 * x | x <- a]
      else if size a == 1%N then Ok [seq 1 * nth 0 a 0 | _ <- V]
      else if size V == 1%N then Ok [seq 1 * x | x <- a]
      else Raise ValueError
  | PyObject _ => Raise TypeError
  end.

(** One chunk: [X = coefficients(qs)] has one row per entry of [qs],
    [wXT = X.T * ws] scales row [i] by [ws[i]], and the two products are
    [np.dot(wXT, X)] and [np.dot(wXT, Vs)]. *)
Definition chunk_X (dht : DiscreteHankelTransform) (m : nat) (qs : seq R) :
  'M[R]_(m, n.+1) :=
  \matrix_(i, k) coefficients_at dht (nth 0 qs i) 0 k.

Definition chunk_wXT (m : nat) (X : 'M[R]_(m, n.+1)) (ws : seq R) :
  'M[R]_(n.+1, m) :=
  \matrix_(k, i) (X i k * nth 0 ws i).

Definition chunk_V (m : nat) (Vs : seq R) : 'cV[R]_m :=
  \col_i nth 0 Vs i.

(** The shapes numpy accepts in a chunk: [X.T * ws] broadcasts [ws] over the
    columns of [X.T], so [ws] has the length of [qs] (or length 1), and
    [np.dot(wXT, Vs)] needs [Vs] of that length; anything else is a
    [ValueError]. *)
Definition chunk_shapes_ok (qs ws Vs : seq R) : bool :=
  ((size ws == size qs) || (size ws == 1%N)) && (size Vs == size qs).

Definition broadcast_ws (m : nat) (ws : seq R) : seq R :=
  if size ws == m then ws else nseq m (nth 0 ws 0).

Fixpoint build_loop (fuel : nat) (dht : DiscreteHankelTransform)
    (q w V : seq R) (Nstep : int) (start stop : int) (M : mat) (j : vec) :
  result (mat * vec) :=
  if start < (size V)%:Z then
    if fuel is fuel'.+1 then
      let qs := py_slice q start stop in
      let ws := py_slice w start stop in
      let Vs := py_slice V start stop in
      if chunk_shapes_ok qs ws Vs then
        let X := chunk_X dht (size qs) qs in
        let wXT := chunk_wXT X (broadcast_ws (size qs) ws) in
        build_loop fuel' dht q w V Nstep stop (stop + Nstep)
          (M + wXT *m X) (j + wXT *m chunk_V (size qs) Vs)
      else Raise ValueError
    else OutOfFuel
  else Ok (M, j).

(** [0.5*np.sum(np.log(w/(2*np.pi)) - V*w*V)].  [w] has the length of [V],
    except that a [V] of one entry is repeated along a longer [w]. *)
Definition noise_normalization (w V : seq R) : R :=
  let Vb := fun i : nat => nth 0 V (if size V == 1%N then 0%N else i) in
  half * \sum_(i < size w)
           (np_log K (nth 0 w i / (2%:R * np_pi K)) - Vb i * nth 0 w i * Vb i).

Definition chunk_step (self : FourierBesselFitter) (V : seq R) : int :=
  if _blocking self then int_div_plus1 (_block_size self) n.+1
  else (size V)%:Z.

(** [_build_matrices(q, V, weights)]: [M] and [j] start from the scalar 0,
    to which the first chunk is added; the zero matrix and vector stand for
    it. *)
Definition _build_matrices (fuel : nat) (self : FourierBesselFitter)
    (q V : seq R) (weights : pyval R) : result FourierBesselFitter :=
  let Nstep := chunk_step self V in
  w <- broadcast_weights V weights ;;
  Mj <- build_loop fuel (F_DHT self) q w V Nstep 0 Nstep 0 0 ;;
  Ok {| F_DHT := F_DHT self; _blocking := _blocking self;
        _block_size := _block_size self;
        F_M := Some Mj.1; F_j := Some Mj.2;
        _H0 := Some (noise_normalization w V); _sol := _sol self |}.

(** Reading an attribute that may not have been set yet. *)
Definition getattr (A : Type) (name : string) (a : option A) : result A :=
  if a is Some x then Ok x else Raise (AttributeError name).

Definition set_sol (self : FourierBesselFitter) (sol : HankelRegressor) :
  FourierBesselFitter :=
  {| F_DHT := F_DHT self; _blocking := _blocking self;
     _block_size := _block_size self; F_M := F_M self; F_j := F_j self;
     _H0 := _H0 self; _sol := Some sol |}.

(** [FourierBesselFitter.fit(self, q, V, weights=1)].  The body reads the
    name [w], and the names bound in it are its parameters. *)
Definition FourierBesselFitter_fit (fuel : nat) (self : FourierBesselFitter)
    (q V : seq R) (weights : pyval R) :
  result (HankelRegressor * FourierBesselFitter) :=
  let locals :=
    [:: ("self"%string, PyObject "self"); ("q"%string, PyArray q);
        ("V"%string, PyArray V); ("weights"%string, weights)] in
  w <- load_name locals "w" ;;
  self1 <- _build_matrices fuel self q V w ;;
  M <- getattr "_M" (F_M self1) ;;
  j <- getattr "_j" (F_j self1) ;;
  H0 <- getattr "_H0" (_H0 self1) ;;
  sol <- HankelRegressor_init (F_DHT self1) M j None H0 ;;
  Ok (sol, set_sol self1 sol).

(** *** FrankFitter *)

Record FrankFitter : Type := mkFrankFitter {
  base : FourierBesselFitter;
  _p0 : R;
  _ai : R;
  _smooth : R;
  _tol : R;
  _max_iter : int;
  _ps : option vec;
  _ps_cov : option mat
}.

Definition at_index (v : vec) (k : nat) : R :=
  if insub k is Some i then v (i : 'I_n.+1) 0 else 0.

(** [_build_smoothing_matrix]: the three diagonals [Delta[0]], [Delta[1]],
    [Delta[2]] of the second-difference operator over [log q], stored by
    column as [scipy.sparse.dia_matrix] reads them (offsets -1, 0, 1), the
    diagonal matrix of [dce], and [Tij = Delta.T (dce Delta)] scaled by the
    smoothness weight. *)
Definition log_q (dht : DiscreteHankelTransform) (k : nat) : R :=
  np_log K (at_index (DHT_q dht) k).

Definition dc (dht : DiscreteHankelTransform) (k : nat) : R :=
  (log_q dht k.+2 - log_q dht k) / 2%:R.

Definition de (dht : DiscreteHankelTransform) (k : nat) : R :=
  log_q dht k.+1 - log_q dht k.

Definition Delta_data (dht : DiscreteHankelTransform) (row k : nat) : R :=
  match row with
  | 0%N => if (k.+2 < n.+1)%N then 1 / (dc dht k * de dht k) else 0
  | 1%N => if (0 < k)%N && (k.+1 < n.+1)%N
           then - (1 / de dht k + 1 / de dht k.-1) / dc dht k.-1 else 0
  | _ => if (2 <= k)%N then 1 / (dc dht k.-2 * de dht k.-1) else 0
  end.

Definition Delta (dht : DiscreteHankelTransform) : mat :=
  \matrix_(i, k) (if (k.+1 == i :> nat) then Delta_data dht 0 k
                  else if (k == i :> nat) then Delta_data dht 1 k
                  else if (k == i.+1 :> nat) then Delta_data dht 2 k
                  else 0).

Definition dce (dht : DiscreteHankelTransform) : mat :=
  \matrix_(i, k) (if (i == k) && (0 < i)%N && (i.+1 < n.+1)%N
                  then dc dht i.-1 else 0).

Definition _build_smoothing_matrix (self : FrankFitter) : mat :=
  let dht := F_DHT (base self) in
  let Tij := (Delta dht)^T *m (dce dht *m Delta dht) in
  map_mx (fun x => x * _smooth self) Tij.

(** [fit_powerspectrum(p)] *)
Definition fit_powerspectrum (self : FrankFitter) (p : vec) :
  result HankelRegressor :=
  M <- getattr "_M" (F_M (base self)) ;;
  j <- getattr "_j" (F_j (base self)) ;;
  H0 <- getattr "_H0" (_H0 (base self)) ;;
  HankelRegressor_init (F_DHT (base self)) M j (Some p) H0.

(** [np.dot(Ykm, fit.mean)**2] *)
Definition trace1 (Ykm : mat) (fit : HankelRegressor) : vec :=
  \col_i ((Ykm *m mean fit) i 0) ^+ 2.

(** [np.einsum('ij,ji->i', Ykm, X)] *)
Definition einsum_ij_ji (Ykm : mat) (X : ndarray) : result vec :=
  match X with
  | Array2 m => Ok (\col_i \sum_k Ykm i k * m k i)
  | Array1 _ => Raise ValueError
  end.

Definition trace2 (Ykm : mat) (fit : HankelRegressor) : result vec :=
  X <- Dsolve fit (Array2 Ykm^T) ;;
  einsum_ij_ji Ykm X.

(** The state of the power-spectrum iteration: the variables [pi], [pi_old],
    [fit] and [count] of [FrankFitter.fit]. *)
Record loop_state : Type := LoopState {
  st_pi : vec;
  st_pi_old : vec;
  st_fit : HankelRegressor;
  st_count : nat
}.

(** [np.any(np.abs(pi-pi_old) > self._tol * np.abs(pi))] *)
Definition not_converged (self : FrankFitter) (st : loop_state) : bool :=
  [exists i, `|st_pi st i 0 - st_pi_old st i 0| > _tol self * `|st_pi st i 0|].

Definition loop_cond (self : FrankFitter) (st : loop_state) : bool :=
  not_converged self st && ((st_count st)%:Z <= _max_iter self).

Definition loop_body (self : FrankFitter) (Ykm Tij_pI : mat) (rho : R)
    (st : loop_state) : result loop_state :=
  let pi := st_pi st in
  let fit := st_fit st in
  let Tr1 := trace1 Ykm fit in
  Tr2 <- trace2 Ykm fit ;;
  let beta : vec :=
    \col_i ((_p0 self + half * (Tr1 i 0 + Tr2 i 0)) / pi i 0
            - (_ai self - 1 + half * rho)) in
  let rhs : vec := \col_i (beta i 0 + np_log K (pi i 0)) in
  let x := spsolve K Tij_pI rhs in
  let pi_new : vec := \col_i np_exp K (x i 0) in
  fit' <- fit_powerspectrum self pi_new ;;
  Ok {| st_pi := pi_new; st_pi_old := pi; st_fit := fit';
        st_count := (st_count st).+1 |}.

(** [while (np.any(...) and count <= self._max_iter): ...] *)
Fixpoint fit_loop (fuel : nat) (self : FrankFitter) (Ykm Tij_pI : mat)
    (rho : R) (st : loop_state) : result loop_state :=
  if loop_cond self st then
    if fuel is fuel'.+1 then
      st' <- loop_body self Ykm Tij_pI rho st ;;
      fit_loop fuel' self Ykm Tij_pI rho st'
    else OutOfFuel
  else Ok st.

(** [_ps_covariance(fit, Tij, rho)]: the inverse, by Cholesky, of the
    Hessian at the final spectrum.  No fallback here: a Hessian that is not
    positive definite raises [LinAlgError]. *)
Definition _ps_covariance (self : FrankFitter) (fit : HankelRegressor)
    (Tij : mat) (rho : R) : result mat :=
  let Ykm := coefficients (F_DHT (base self)) in
  let mq := Ykm *m mean fit in
  let mqq : mat := \matrix_(i, k) (mq i 0 * mq k 0) in
  X <- Dsolve fit (Array2 Ykm^T) ;;
  Dqq <- (if X is Array2 m then Ok (Ykm *m m) else Raise ValueError) ;;
  p <- (if power_spectrum fit is Some p' then Ok p' else Raise TypeError) ;;
  let tau : vec := \col_i np_log K (p i 0) in
  let Ttau := Tij *m tau in
  let hess : mat :=
    \matrix_(i, k)
      ((if i == k then _ai self - 1 + half * rho + Ttau i 0 else 0)
       + Tij i k
       - half * ((1 / p i 0) * (1 / p k 0))
         * (2%:R * mqq i k + Dqq i k) * Dqq i k) in
  hess_chol <- cho_factor hess ;;
  Ok (cho_solve hess_chol 1%:M).

(** [np.max] of a vector. *)
Definition np_max (v : vec) : R := \big[Order.max/v 0 0]_i v i 0.

Definition set_fit_result (self : FrankFitter) (bs : FourierBesselFitter)
    (fit : HankelRegressor) (pi : vec) (ps_cov : mat) : FrankFitter :=
  {| base := set_sol bs fit; _p0 := _p0 self; _ai := _ai self;
     _smooth := _smooth self; _tol := _tol self;
     _max_iter := _max_iter self; _ps := Some pi; _ps_cov := Some ps_cov |}.

Definition with_base (self : FrankFitter) (bs : FourierBesselFitter) :
  FrankFitter :=
  {| base := bs; _p0 := _p0 self; _ai := _ai self; _smooth := _smooth self;
     _tol := _tol self; _max_iter := _max_iter self; _ps := _ps self;
     _ps_cov := _ps_cov self |}.

(** The part of [FrankFitter.fit] before the loop: the design matrices, the
    smoothing matrix, the initial guess of the spectrum and one unsmoothed
    update.  It returns the fitter and the state the loop starts from
    ([count = 0], [pi_old = 0]). *)
Definition fit_prologue (fuel : nat) (self : FrankFitter) (q V : seq R)
    (w : pyval R) : result (FrankFitter * loop_state) :=
  bs <- _build_matrices fuel (base self) q V w ;;
  let self1 := with_base self bs in
  let dht := F_DHT bs in
  let Ykm := coefficients dht in
  let rho : R := 1 in
  let pi0 : vec := const_mx 1 in
  fit0 <- fit_powerspectrum self1 pi0 ;;
  let scale := np_max (Ykm *m mean fit0) ^+ 2 / (_ai self + half * rho - 1) in
  let pi1 : vec := \col_i (scale * (DHT_q dht i 0 / DHT_q dht 0 0) ^- 2) in
  M <- getattr "_M" (F_M bs) ;;
  j <- getattr "_j" (F_j bs) ;;
  fit1 <- HankelRegressor_init dht M j (Some pi1) 0 ;;
  let Tr1 := trace1 Ykm fit1 in
  Tr2 <- trace2 Ykm fit1 ;;
  let pi2 : vec :=
    \col_i ((_p0 self + half * (Tr1 i 0 + Tr2 i 0))
            / (_ai self - 1 + half * rho)) in
  fit2 <- fit_powerspectrum self1 pi2 ;;
  Ok (self1, {| st_pi := pi2; st_pi_old := 0; st_fit := fit2;
                st_count := 0 |}).

(** [FrankFitter.fit(self, q, V, w=1)]: the result is the regressor
    [self._sol]; the fitter is returned with [_sol], [_ps] and [_ps_cov]
    set. *)
Definition FrankFitter_fit (fuel : nat) (self : FrankFitter) (q V : seq R)
    (w : pyval R) : result (HankelRegressor * FrankFitter) :=
  pre <- fit_prologue fuel self q V w ;;
  let self1 := pre.1 in
  let Tij := _build_smoothing_matrix self1 in
  let Ykm := coefficients (F_DHT (base self1)) in
  let rho : R := 1 in
  let Tij_pI := 1%:M + Tij in
  st <- fit_loop fuel self1 Ykm Tij_pI rho pre.2 ;;
  let fit := st_fit st in
  ps_cov <- _ps_covariance self1 fit Tij rho ;;
  Ok (fit, set_fit_result self1 (base self1) fit (st_pi st) ps_cov).

(** [log_prior(self, p=None)].  The names bound in the body are [self], [p],
    [Tij] and, further down, [xi], [like] and [tau]; the body reads [pi]. *)
Definition as_vec (v : pyval R) : result vec :=
  match v with
  | PyArray a => Ok (\col_i nth 0 a i)
  | PyFloat x => Ok (const_mx x)
  | PyObject _ => Raise TypeError
  end.

Definition seq_of_vec (v : vec) : seq R := [seq v i 0 | i <- enum 'I_n.+1].

Definition log_prior (self : FrankFitter) (p : option vec) : result R :=
  p' <- (if p is Some x then Ok x else getattr "_ps" (_ps self)) ;;
  let Tij := _build_smoothing_matrix self in
  let locals :=
    [:: ("self"%string, PyObject "self");
        ("p"%string, PyArray (seq_of_vec p'));
        ("Tij"%string, PyObject "Tij")] in
  piv <- load_name locals "pi" ;;
  pi <- as_vec piv ;;
  let xi : vec := \col_i (_p0 self / pi i 0) in
  let like := \sum_i (xi i 0 - _ai self * np_log K (xi i 0)) in
  piv' <- load_name locals "pi" ;;
  pi' <- as_vec piv' ;;
  let tau : vec := \col_i np_log K (pi' i 0) in
  Ok (like - half * vdot tau (Tij *m tau)).

End Model.

(** ** Auxiliary definitions for the statements *)

Section Statements.

Variable R : realFieldType.
Variable n : nat.
Variable K : numerics R n.

Notation vec := 'cV[R]_n.+1.
Notation mat := 'M[R]_n.+1.

(** The array [p] with entry [k] replaced by [x]. *)
Definition set_entry (p : vec) (k : 'I_n.+1) (x : R) : vec :=
  \col_i (if i == k then x else p i 0).

Definition result_map (A B : Type) (f : A -> B) (c : result A) : result B :=
  x <- c ;; Ok (f x).

(** A threshold [eps] below which [np.where(s > 0, 1./s, 0)] would return
    zero for a singular value. *)
Definition zeroes_below (eps : R) : Prop :=
  forall s : vec, forall i,
    0 < s i 0 <= eps -> where_pos_inv s i 0 = 0.

(** The posterior precision that [__init__] hands to [_fit]. *)
Definition Dinv_of (dht : DiscreteHankelTransform R n) (M : mat)
    (p : option vec) : mat :=
  M + (if p is Some p' then prior_precision dht p' else 0).

(** What [_fit] records on the two paths. *)
Definition recorded_by_cholesky (self : HankelRegressor K) (c : chol K) :
  Prop :=
  [/\ _Dchol self = Some c, _Dsvd self = None,
      mean self = cho_solve c (_j self)
    & forall b, Dsolve self b = Ok (cho_solve_nd c b)].

Definition recorded_by_svd (self : HankelRegressor K) (Dinv : mat) : Prop :=
  let U := (svd K Dinv).1.1 in
  let s := (svd K Dinv).1.2 in
  let V := (svd K Dinv).2 in
  let s1 : vec := \col_i (if 0 < s i 0 then 1 / s i 0 else 0) in
  [/\ _Dchol self = None, _Dsvd self = Some (U, s1, V),
      mean self = V^T *m (\col_i ((U^T *m _j self) i 0 * s1 i 0))
    & forall b, Dsolve self b = Ok (svd_solve U s1 V b)].

(** The contribution of a run of data points to [M] and [j]. *)
Definition contrib_M (dht : DiscreteHankelTransform R n) (qs ws : seq R) :
  mat :=
  \matrix_(a, b) \sum_(t <- zip qs ws)
     (coefficients_at dht t.1 0 a * t.2 * coefficients_at dht t.1 0 b).

Definition contrib_j (dht : DiscreteHankelTransform R n) (qs ws Vs : seq R) :
  vec :=
  \col_a \sum_(t <- zip (zip qs ws) Vs)
     (coefficients_at dht t.1.1 0 a * t.1.2 * t.2).

Definition weights_match (V : seq R) (weights : pyval R) : bool :=
  match weights with
  | PyFloat _ => true
  | PyArray a => size a == size V
  | PyObject _ => false
  end.

Definition with_blocking (self : FourierBesselFitter K) (b : bool) :
  FourierBesselFitter K :=
  {| F_DHT := F_DHT self; _blocking := b; _block_size := _block_size self;
     F_M := F_M self; F_j := F_j self; _H0 := _H0 self; _sol := _sol self |}.

(** The fitter after [_build_matrices] has stored [M], [j] and [H0]. *)
Definition built (self : FourierBesselFitter K) (M : mat) (j : vec) (H0 : R) :
  FourierBesselFitter K :=
  {| F_DHT := F_DHT self; _blocking := _blocking self;
     _block_size := _block_size self; F_M := Some M; F_j := Some j;
     _H0 := Some H0; _sol := _sol self |}.

(** The array [w] of [_build_matrices] for weights of a matching shape. *)
Definition weights_array (V : seq R) (weights : pyval R) : seq R :=
  match weights with
  | PyFloat x => [seq 1 * x | _ <- V]
  | PyArray a => [seq 1 * x | x <- a]
  | PyObject _ => [::]
  end.

(** The regressor of the loop state is the one fitted at its spectrum. *)
Definition fitted_at (self : FrankFitter K) (st : loop_state K) : Prop :=
  fit_powerspectrum self (st_pi st) = Ok (st_fit st).

(** Two fitters with the same data-side configuration: they may differ in
    the tolerance and in the iteration cap. *)
Definition same_but_stopping (selfA selfB : FrankFitter K) : Prop :=
  [/\ base selfA = base selfB, _p0 selfA = _p0 selfB,
      _ai selfA = _ai selfB & _smooth selfA = _smooth selfB].

End Statements.

(** ** A concrete instance: one collocation point over the rationals

    With [N = 1] every array is a scalar.  The Cholesky factor of [[a]] is
    represented by its pivot [a], the singular value decomposition of [[a]]
    is [sign a * |a| * 1].  The rationals have no exponential, logarithm or
    pi: the instance takes the first-order expansions [1 + x] and [x - 1] and
    the approximation [22/7].  The theorems hold for every instance; this one
    is where the examples are run. *)

Definition cho_factor_1 (A : 'M[rat]_1) : PyError + rat :=
  if 0 < A 0 0 then inr (A 0 0) else inl LinAlgError.

Definition cho_solve_1 (k : nat) (c : rat) (b : 'M[rat]_(1, k)) :
  'M[rat]_(1, k) :=
  map_mx (fun x => x / c) b.

Definition svd_1 (A : 'M[rat]_1) : 'M[rat]_1 * 'cV[rat]_1 * 'M[rat]_1 :=
  (const_mx (if A 0 0 < 0 then -1 else 1), const_mx `|A 0 0|, const_mx 1).

Definition exp_1 (x : rat) : rat := 1 + x.

Definition log_1 (x : rat) : rat := x - 1.

Definition pi_1 : rat := 22%:R / 7%:R.

Definition slogdet_1 (A : 'M[rat]_1) : rat * rat :=
  (Num.sg (A 0 0), log_1 `|A 0 0|).

Definition spsolve_1 (A : 'M[rat]_1) (b : 'cV[rat]_1) : 'cV[rat]_1 :=
  map_mx (fun x => x / A 0 0) b.

Definition K1 : numerics rat 0 :=
  @Numerics rat 0 rat cho_factor_1 cho_solve_1 svd_1 slogdet_1 spsolve_1
    exp_1 log_1 pi_1.

(** The basis with the single coefficient 1 and the frequency grid [[1]]. *)
Definition dht1 : DiscreteHankelTransform rat 0 :=
  DHT (fun _ => const_mx 1) (const_mx 1) (const_mx 1).

Definition fitter1 (blocking : bool) (block_size : int) :
  FourierBesselFitter K1 :=
  {| F_DHT := dht1; _blocking := blocking; _block_size := block_size;
     F_M := None; F_j := None; _H0 := None; _sol := None |}.

(** [FrankFitter(Rmax, 1, alpha=1.5, p_0=0.5, tol=tol, max_iter=max_iter)] *)
Definition frank1 (tol : rat) (max_iter : int) : FrankFitter K1 :=
  {| base := fitter1 true 10000; _p0 := 2%:R^-1; _ai := 3%:R / 2%:R;
     _smooth := 10%:R^-1; _tol := tol; _max_iter := max_iter;
     _ps := None; _ps_cov := None |}.

(** ** The example run

    One visibility, fitted with two stopping configurations. *)

(** The example data: one visibility [V = 0] at [q = 1] with the default
    weight 1. *)
Definition q1 : seq rat := [:: 1].
Definition V1 : seq rat := [:: 0].
Definition w1 : pyval rat := PyFloat 1.

Definition built1 : FourierBesselFitter K1 :=
  built (fitter1 true 10000) (const_mx 1) (const_mx 0) (- (37%:R / 88%:R)).

(** The regressor that [HankelRegressor(dht1, [[m]], [jv], [a], nl)]
    constructs when the Cholesky factorisation succeeds. *)
Definition pivot1 (m a : rat) : rat := m + 1 * (if 0 < a then 1 / a else 0) * 1.

Definition reg1 (m jv a nl : rat) : HankelRegressor K1 :=
  @mkHankelRegressor rat 0 K1 dht1 (const_mx m) (const_mx jv)
    (Some (const_mx a)) (Some (prior_precision dht1 (const_mx a))) nl
    (Some (pivot1 m a)) None (const_mx (jv / pivot1 m a)) None.

Definition H01 : rat := - (37%:R / 88%:R).

Definition st0_1 : loop_state K1 :=
  LoopState (const_mx 1) 0 (reg1 1 0 1 H01) 0.

Definition self1 (tol : rat) (mi : int) : FrankFitter K1 :=
  with_base (frank1 tol mi) built1.

Definition Tij1 (tol : rat) (mi : int) : 'M[rat]_1 :=
  _build_smoothing_matrix (self1 tol mi).

Definition st1_1 : loop_state K1 :=
  LoopState (const_mx (3%:R / 4%:R)) (const_mx 1)
    (reg1 1 0 (3%:R / 4%:R) H01) 1.

(** The two stopping configurations of the example. *)
Definition tolA : rat := 2%:R^-1.
Definition max_iterA : int := 250.
Definition tolB : rat := 1000%:R^-1.
Definition max_iterB : int := 0.

Definition sol1 : HankelRegressor K1 := reg1 1 0 (3%:R / 4%:R) H01.

Definition ps_cov1 : 'M[rat]_1 := cho_solve_1 (41%:R / 49%:R) 1%:M.

Definition result1 (tol : rat) (mi : int) : FrankFitter K1 :=
  set_fit_result (self1 tol mi) built1 sol1 (const_mx (3%:R / 4%:R)) ps_cov1.

(** ** Constructors and result properties *)

Section Constructors.

Variable R : realFieldType.
Variable n : nat.
Variable K : numerics R n.

(** [FourierBesselFitter.__init__(self, Rmax, N, nu=0, block_data=True,
    block_size=10**7)].  The body calls the name [DiscreteHankelTransform]
    with [(Rmax, N, nu)]; [call] is what calling the object bound to that
    name returns. *)
Definition FourierBesselFitter_init
    (call : pyval R -> result (DiscreteHankelTransform R n))
    (Rmax : R) (nu : int) (block_data : bool) (block_size : int) :
  result (FourierBesselFitter K) :=
  let locals :=
    [:: ("self"%string, PyObject "self"); ("Rmax"%string, PyFloat Rmax);
        ("N"%string, PyFloat n.+1%:R); ("nu"%string, PyFloat nu%:~R);
        ("block_data"%string,
         PyObject (if block_data then "True" else "False")%string);
        ("block_size"%string, PyFloat block_size%:~R)] in
  cls <- load_name locals "DiscreteHankelTransform" ;;
  dht <- call cls ;;
  Ok {| F_DHT := dht; _blocking := block_data; _block_size := block_size;
        F_M := None; F_j := None; _H0 := None; _sol := None |}.

(** [FrankFitter.__init__(self, Rmax, N, nu=0, alpha=1.05, p_0=0.,
    w_smooth=0.1, tol=1e-3, max_iter=250, block_data=True,
    block_size=10**7)]: the constructor of the base class runs first. *)
Definition FrankFitter_init
    (call : pyval R -> result (DiscreteHankelTransform R n))
    (Rmax : R) (nu : int) (alpha p_0 w_smooth tol : R) (max_iter : int)
    (block_data : bool) (block_size : int) : result (FrankFitter K) :=
  let locals :=
    [:: ("self"%string, PyObject "self"); ("Rmax"%string, PyFloat Rmax);
        ("N"%string, PyFloat n.+1%:R); ("nu"%string, PyFloat nu%:~R);
        ("alpha"%string, PyFloat alpha); ("p_0"%string, PyFloat p_0);
        ("w_smooth"%string, PyFloat w_smooth); ("tol"%string, PyFloat tol);
        ("max_iter"%string, PyFloat max_iter%:~R);
        ("block_data"%string,
         PyObject (if block_data then "True" else "False")%string);
        ("block_size"%string, PyFloat block_size%:~R)] in
  _ <- load_name locals "super" ;;
  _ <- load_name locals "FrankFitter" ;;
  bs <- FourierBesselFitter_init call Rmax nu block_data block_size ;;
  Ok {| base := bs; _p0 := p_0; _ai := alpha; _smooth := w_smooth;
        _tol := tol; _max_iter := max_iter; _ps := None; _ps_cov := None |}.

(** The properties [MAP_solution], [MAP_spectrum] and
    [MAP_spectrum_covariance] read the attributes that [fit] sets. *)
Definition MAP_solution (self : FrankFitter K) : result (HankelRegressor K) :=
  getattr "_sol" (_sol (base self)).

Definition MAP_spectrum (self : FrankFitter K) : result 'cV[R]_n.+1 :=
  getattr "_ps" (_ps self).

Definition MAP_spectrum_covariance (self : FrankFitter K) :
  result 'M[R]_n.+1 :=
  getattr "_ps_cov" (_ps_cov self).

(** The quadratic form [x.T A x]. *)
Definition quad_form (A : 'M[R]_n.+1) (x : 'cV[R]_n.+1) : R :=
  (x^T *m A *m x) 0 0.

End Constructors.

(** ** Data for the examples of the further properties *)

(** A regressor over [K1] whose precision [[2]] has a Cholesky factor, the
    array its [covariance] property computes, and the regressor once the
    array is stored. *)
Definition reg_chol : HankelRegressor K1 :=
  @mkHankelRegressor rat 0 K1 dht1 (const_mx 2%:R) (const_mx 1) None None 0
    (Some 2%:R) None (const_mx (2%:R^-1)) None.

Definition cov_chol : ndarray rat 0 := Array2 (cho_solve_1 2%:R 1%:M).

Definition reg_chol_cached : HankelRegressor K1 :=
  @mkHankelRegressor rat 0 K1 dht1 (const_mx 2%:R) (const_mx 1) None None 0
    (Some 2%:R) None (const_mx (2%:R^-1)) (Some cov_chol).

(** A regressor over [K1] that holds a fallback factorisation. *)
Definition reg_svd : HankelRegressor K1 :=
  @mkHankelRegressor rat 0 K1 dht1 0 (const_mx 1) None None 0
    None (Some (const_mx 1, const_mx 0, const_mx 1)) 0 None.

(** The precisions [[2]] and [[-2]] and the decomposition [svd_1] returns
    for the second. *)
Definition Dinv_pos : 'M[rat]_1 := Dinv_of dht1 (const_mx 2%:R) None.

Definition Dinv_neg : 'M[rat]_1 := Dinv_of dht1 (const_mx (- 2%:R)) None.

Definition U_neg : 'M[rat]_1 := const_mx (if Dinv_neg 0 0 < 0 then -1 else 1).

Definition s_neg : 'cV[rat]_1 := const_mx `|Dinv_neg 0 0|.

Definition V_neg : 'M[rat]_1 := const_mx 1.

(** ** The posterior solver *)

Section HankelRegressorFacts.

Variable R : realFieldType.
Variable n : nat.
Variable K : numerics R n.

Notation vec := 'cV[R]_n.+1.
Notation mat := 'M[R]_n.+1.

Implicit Types (dht : DiscreteHankelTransform R n) (M : mat) (j p : vec).
Implicit Types (self : HankelRegressor K).

Lemma where_pos_invE (x : vec) i :
  where_pos_inv x i 0 = if 0 < x i 0 then 1 / x i 0 else 0.
Proof. by rewrite /where_pos_inv mxE. Qed.

Lemma where_pos_inv_set_entry p k :
  p k 0 < 0 -> where_pos_inv (set_entry p k 0) = where_pos_inv p.
Proof.
move=> pk_neg; apply/colP => i; rewrite !where_pos_invE /set_entry mxE.
case: eqP => [->|//]; rewrite ltxx.
by rewrite ltNge (ltW pk_neg).
Qed.

(** [_fit] leaves the attributes set by [__init__] as they are. *)
Lemma fit_frame self r :
  HankelRegressor_fit self = Ok r ->
  [/\ _M r = _M self, _j r = _j self, _p r = _p self,
      _Sinv r = _Sinv self & _like_noise r = _like_noise self].
Proof.
rewrite /HankelRegressor_fit.
case: (cho_factor K _) => [c|e|] /=; first by case=> <-.
  case: e => //=; case: (svd K _) => [[U s] V] /=.
  by case=> <-.
by [].
Qed.

(** The outcome of [_fit] is fixed by [M], [j] and [Sinv]: two objects that
    agree on these are fitted alike. *)
Lemma fit_Sinv_irrelevant_p dht M j (p p' : option vec) (S : option mat)
    (nl : R) :
  result_map (@_Sinv _ _ K)
    (HankelRegressor_fit
       {| _DHT := dht; _M := M; _j := j; _p := p; _Sinv := S;
          _like_noise := nl; _Dchol := None; _Dsvd := None; _mu := 0;
          _cov := None |}) =
  result_map (@_Sinv _ _ K)
    (HankelRegressor_fit
       {| _DHT := dht; _M := M; _j := j; _p := p'; _Sinv := S;
          _like_noise := nl; _Dchol := None; _Dsvd := None; _mu := 0;
          _cov := None |}).
Proof.
rewrite /HankelRegressor_fit /posterior_precision /=.
case: (cho_factor K _) => [c|e|] //=.
by case: e => //=; case: (svd K _) => [[U s] V].
Qed.

(** C5: a negative entry of the power spectrum is treated as a zero entry.
    The per-mode prior precision is [1/p[k]] where [p[k] > 0] and [0]
    elsewhere, so replacing a negative [p[k]] by [0] leaves the prior
    precision matrix [Sinv] unchanged, and the two constructions of a
    [HankelRegressor] store the same [Sinv]. *)
Theorem Sinv_negative_entry_as_zero dht M j p (k : 'I_n.+1) (nl : R) :
  p k 0 < 0 ->
  [/\ forall i, where_pos_inv p i 0 = if 0 < p i 0 then 1 / p i 0 else 0,
      prior_precision dht (set_entry p k 0) = prior_precision dht p
    & result_map (@_Sinv _ _ K)
        (HankelRegressor_init K dht M j (Some (set_entry p k 0)) nl) =
      result_map (@_Sinv _ _ K) (HankelRegressor_init K dht M j (Some p) nl)].
Proof.
move=> pk_neg.
have eqS : prior_precision dht (set_entry p k 0) = prior_precision dht p.
  by rewrite /prior_precision where_pos_inv_set_entry.
split=> //; first exact: where_pos_invE.
rewrite /HankelRegressor_init eqS.
exact: fit_Sinv_irrelevant_p.
Qed.

(** C4 (amended): [_fit] tries the Cholesky factorisation of [Dinv] first.
    When it succeeds the factor is recorded and used for the mean; when it
    raises [LinAlgError] no error leaves the constructor: the singular value
    decomposition is taken, the reciprocals [1/s] of the positive singular
    values are recorded, and a singular value that is not positive gets the
    reciprocal 0 (there is no threshold for small positive values).  Every
    later [Dsolve] applies the recorded factorisation. *)
Theorem fit_cholesky_then_svd dht M j (p : option vec) (nl : R) :
  (exists c, cho_factor K (Dinv_of dht M p) = Ok c)
  \/ cho_factor K (Dinv_of dht M p) = Raise LinAlgError ->
  exists2 self, HankelRegressor_init K dht M j p nl = Ok self &
    match cho_factor K (Dinv_of dht M p) with
    | Ok c => recorded_by_cholesky self c
    | _ => recorded_by_svd self (Dinv_of dht M p)
    end.
Proof.
rewrite /HankelRegressor_init /HankelRegressor_fit /posterior_precision /=.
rewrite -/(Dinv_of dht M p).
have -> : M + (if (if p is Some p' then Some (prior_precision dht p')
                   else None) is Some Sinv0 then Sinv0 else 0)
          = Dinv_of dht M p by rewrite /Dinv_of; case: p.
case=> [[c ->]|->] /=.
  by eexists; first by []; split.
rewrite /recorded_by_svd; case: (svd K _) => [[U s] V] /=.
eexists; first by [].
by split.
Qed.

(** C3: in the marginal mode ([I] omitted) [log_likelihood] reads the
    attribute [_Dsolve] as soon as a prior is present; the class defines
    [Dsolve] and no [_Dsolve], so the call raises [AttributeError].  Without
    a prior it returns [0.5 j.mean + noise_likelihood]. *)
Theorem log_likelihood_marginal self :
  log_likelihood self None =
    if _Sinv self is Some _ then Raise (AttributeError "_Dsolve")
    else Ok (2%:R^-1 * vdot (_j self) (_mu self) + _like_noise self).
Proof.
rewrite /log_likelihood; case: (_Sinv self) => [Sinv|] //=.
Qed.

Lemma posterior_precision_init dht M j (p : option vec) nl Dchol Dsvd mu cov :
  posterior_precision
    (@mkHankelRegressor R n K dht M j p
       (if p is Some p' then Some (prior_precision dht p') else None)
       nl Dchol Dsvd mu cov)
  = Dinv_of dht M p.
Proof. by rewrite /posterior_precision /Dinv_of /=; case: p. Qed.

(** The regressor that the constructor returns on each path. *)
Lemma init_cholesky_path dht M j (p : option vec) nl c :
  cho_factor K (Dinv_of dht M p) = Ok c ->
  HankelRegressor_init K dht M j p nl
  = Ok (@mkHankelRegressor R n K dht M j p
          (if p is Some p' then Some (prior_precision dht p') else None)
          nl (Some c) None (cho_solve c j) None).
Proof.
move=> eq_c.
by rewrite /HankelRegressor_init /HankelRegressor_fit posterior_precision_init
           eq_c.
Qed.

Lemma init_svd_path dht M j (p : option vec) nl U s V :
  cho_factor K (Dinv_of dht M p) = Raise LinAlgError ->
  svd K (Dinv_of dht M p) = (U, s, V) ->
  HankelRegressor_init K dht M j p nl
  = Ok (@mkHankelRegressor R n K dht M j p
          (if p is Some p' then Some (prior_precision dht p') else None)
          nl None (Some (U, where_pos_inv s, V))
          (vec_of (svd_solve U (where_pos_inv s) V (Array1 j))) None).
Proof.
move=> eq_c eq_svd.
by rewrite /HankelRegressor_init /HankelRegressor_fit posterior_precision_init
           eq_c /= eq_svd.
Qed.

(** On the fallback path [Dsolve] of a matrix multiplies column [k] of
    [V.T (U.T b)] by [s1[k]]. *)
Lemma svd_solve_Array2 (U V : mat) (s1 : vec) (b : mat) :
  svd_solve U s1 V (Array2 b) = Array2 (V^T *m (U^T *m b) *m diag_mx s1^T).
Proof.
rewrite /svd_solve /=; congr Array2.
rewrite -mulmxA; congr (_ *m _).
by rewrite mul_mx_diag; apply/matrixP => i k; rewrite !mxE.
Qed.

(** A regressor constructed with a power spectrum always has [_Sinv] set. *)
Lemma init_prior_Sinv dht M j p nl self :
  HankelRegressor_init K dht M j (Some p) nl = Ok self ->
  _Sinv self = Some (prior_precision dht p).
Proof. by rewrite /HankelRegressor_init => /fit_frame [] _ _ _ ->. Qed.

End HankelRegressorFacts.

(** ** The design-matrix builder *)

Section BuilderFacts.

Variable R : realFieldType.
Variable n : nat.
Variable K : numerics R n.

Notation vec := 'cV[R]_n.+1.
Notation mat := 'M[R]_n.+1.

Implicit Types (dht : DiscreteHankelTransform R n) (q w V : seq R).

Lemma py_slice_nat (T : Type) (a : seq T) (s e : nat) :
  py_slice a s%:Z e%:Z = take (e - s) (drop s a).
Proof.
rewrite /py_slice /slice_bound /=.
case: (leqP (size a) s) => [le_as|lt_sa].
  by rewrite drop_size drop_oversize.
case: (leqP e (size a)) => [//|lt_ae].
rewrite !take_oversize ?size_drop //.
by rewrite leq_sub2r // ltnW.
Qed.

Lemma chunk_M_sum dht qs ws :
  size ws = size qs ->
  chunk_wXT (chunk_X dht (size qs) qs) ws *m chunk_X dht (size qs) qs
  = contrib_M dht qs ws.
Proof.
move=> eq_sz; apply/matrixP => a b; rewrite !mxE.
rewrite (big_nth (0, 0)) size_zip eq_sz minnn big_mkord.
apply: eq_bigr => i _; rewrite !mxE nth_zip //=.
Qed.

Lemma chunk_j_sum dht qs ws Vs :
  size ws = size qs -> size Vs = size qs ->
  chunk_wXT (chunk_X dht (size qs) qs) ws *m chunk_V (size qs) Vs
  = contrib_j dht qs ws Vs.
Proof.
move=> eq_w eq_V; apply/colP => a; rewrite !mxE.
rewrite (big_nth (0, 0, 0)) !size_zip eq_w eq_V !minnn big_mkord.
apply: eq_bigr => i _; rewrite !mxE !nth_zip ?size_zip ?eq_w ?minnn //=.
Qed.

Lemma contrib_M_cat dht qs1 qs2 ws1 ws2 :
  size qs1 = size ws1 ->
  contrib_M dht (qs1 ++ qs2) (ws1 ++ ws2)
  = contrib_M dht qs1 ws1 + contrib_M dht qs2 ws2.
Proof.
move=> eq1; apply/matrixP => a b.
by rewrite !mxE zip_cat // big_cat.
Qed.

Lemma contrib_j_cat dht qs1 qs2 ws1 ws2 Vs1 Vs2 :
  size qs1 = size ws1 -> size qs1 = size Vs1 ->
  contrib_j dht (qs1 ++ qs2) (ws1 ++ ws2) (Vs1 ++ Vs2)
  = contrib_j dht qs1 ws1 Vs1 + contrib_j dht qs2 ws2 Vs2.
Proof.
move=> eq1 eq2; apply/colP => a.
by rewrite !mxE !zip_cat ?size_zip -?eq1 ?minnn // big_cat.
Qed.

Lemma contrib_M_nil dht : contrib_M dht [::] [::] = 0.
Proof. by apply/matrixP => a b; rewrite !mxE big_nil. Qed.

Lemma contrib_j_nil dht : contrib_j dht [::] [::] [::] = 0.
Proof. by apply/colP => a; rewrite !mxE big_nil. Qed.

(** The loop adds to [M] and [j] the contribution of the data from [start]
    on, whatever the positive chunk length [k]. *)
Lemma build_loop_from dht q w V (k : nat) :
  (0 < k)%N -> size q = size V -> size w = size V ->
  forall fuel (s : nat) (M : mat) (j : vec),
    (size V <= s + fuel)%N ->
    build_loop fuel dht q w V k%:Z s%:Z (s + k)%:Z M j
    = Ok (M + contrib_M dht (drop s q) (drop s w),
          j + contrib_j dht (drop s q) (drop s w) (drop s V)).
Proof.
move=> k_gt0 eq_q eq_w; elim=> [|fuel IH] s M j le_fuel /=.
  rewrite addn0 in le_fuel.
  rewrite ltz_nat ltnNge le_fuel /= !drop_oversize ?eq_q ?eq_w //.
  by rewrite contrib_M_nil contrib_j_nil !addr0.
rewrite ltz_nat; case: (ltnP s (size V)) => [lt_s|le_s]; last first.
  rewrite !drop_oversize ?eq_q ?eq_w //.
  by rewrite contrib_M_nil contrib_j_nil !addr0.
rewrite !py_slice_nat addKn.
have sz_q : size (take k (drop s q)) = size (take k (drop s V)).
  by rewrite !size_take !size_drop eq_q.
have sz_w : size (take k (drop s w)) = size (take k (drop s V)).
  by rewrite !size_take !size_drop eq_w.
rewrite /chunk_shapes_ok /broadcast_ws sz_w sz_q !eqxx /=.
rewrite -sz_q chunk_M_sum ?sz_q ?sz_w // -sz_q chunk_j_sum ?sz_q ?sz_w //.
have le_fuel' : (size V <= s + k + fuel)%N.
  rewrite -addnA (leq_trans le_fuel) // leq_add2l.
  by rewrite -addn1 addnC leq_add2r.
rewrite -PoszD (IH _ _ _ le_fuel').
congr (Ok (_, _)); rewrite -addrA; congr (_ + _).
  rewrite -[in RHS](cat_take_drop k (drop s q)).
  rewrite -[in RHS](cat_take_drop k (drop s w)).
  by rewrite contrib_M_cat ?sz_q ?sz_w // !drop_drop [(k + s)%N]addnC.
rewrite -[in RHS](cat_take_drop k (drop s q)).
rewrite -[in RHS](cat_take_drop k (drop s w)).
rewrite -[in RHS](cat_take_drop k (drop s V)).
by rewrite contrib_j_cat ?sz_q ?sz_w // !drop_drop [(k + s)%N]addnC.
Qed.

Lemma broadcast_weights_match V weights :
  weights_match V weights ->
  broadcast_weights V weights = Ok (weights_array V weights)
  /\ size (weights_array V weights) = size V.
Proof.
case: weights => [x|a|s] //=; first by rewrite size_map.
by move/eqP=> eq_sz; rewrite eq_sz eqxx size_map.
Qed.

Lemma int_div_plus1_pos (bs : int) (N : nat) :
  (0 < N)%N -> 0 <= bs ->
  exists2 k : nat, (0 < k)%N & int_div_plus1 bs N = k%:Z.
Proof.
move=> N_gt0; case: bs => [b|//] _.
exists ((b + N) %/ N)%N; first by rewrite divn_gt0 // leq_addl.
by rewrite /int_div_plus1 -PoszD.
Qed.

(** With a usable chunk length and enough fuel, [_build_matrices] stores
    the sums over all data points, whether the chunks are short or one chunk
    holds everything. *)
Lemma build_matrices_result fuel (self : FourierBesselFitter K) q V weights :
  size q = size V -> weights_match V weights ->
  (_blocking self ==> (0 <= _block_size self)) -> (size V <= fuel)%N ->
  let w := weights_array V weights in
  _build_matrices fuel self q V weights
  = Ok (built self (contrib_M (F_DHT self) q w)
          (contrib_j (F_DHT self) q w V) (noise_normalization K w V)).
Proof.
move=> eq_q /broadcast_weights_match [eq_b eq_w] bs_ok le_fuel w.
rewrite /_build_matrices eq_b /= -/w.
have [k k_ok ->] : exists2 k : nat,
    (0 < k)%N || (size V == 0)%N & chunk_step self V = k%:Z.
  rewrite /chunk_step; case: (_blocking self) bs_ok => /= [bs_ge0|_].
    by have [k k_gt0 ->] := int_div_plus1_pos (ltn0Sn n) bs_ge0; exists k;
       rewrite ?k_gt0.
  by exists (size V); rewrite // lt0n orNb.
case/orP: k_ok => [k_gt0|/eqP V0].
  rewrite -[k%:Z in X in build_loop _ _ _ _ _ _ _ X]add0r -PoszD.
  rewrite (build_loop_from (F_DHT self) k_gt0 eq_q eq_w) //=.
  by rewrite !drop0 !add0r.
have q0 : q = [::] by apply: size0nil; rewrite eq_q.
have w0 : w = [::] by apply: size0nil; rewrite eq_w.
have {}V0 : V = [::] by apply: size0nil.
rewrite q0 w0 V0; case: fuel {le_fuel} => [|fuel] /=;
  by rewrite contrib_M_nil contrib_j_nil.
Qed.

(** C6: chunked and one-chunk assembly agree.  For equal-length [q], [V] and
    weights, a non-negative [block_size] and enough fuel, [_build_matrices]
    with blocking and without it returns, and stores the same [M], [j] and
    [H0]: the sums of the per-point contributions over all data (equal in
    exact arithmetic; the program's two results differ by the order of the
    floating-point additions only). *)
Theorem blocked_and_unblocked_agree fuel (self : FourierBesselFitter K)
    q V weights :
  size q = size V -> weights_match V weights -> 0 <= _block_size self ->
  (size V <= fuel)%N ->
  exists M j H0,
    [/\ _build_matrices fuel (with_blocking self true) q V weights
         = Ok (built (with_blocking self true) M j H0),
        _build_matrices fuel (with_blocking self false) q V weights
         = Ok (built (with_blocking self false) M j H0)
      & M = contrib_M (F_DHT self) q (weights_array V weights)].
Proof.
move=> eq_q w_ok bs_ge0 le_fuel.
exists (contrib_M (F_DHT self) q (weights_array V weights)).
exists (contrib_j (F_DHT self) q (weights_array V weights) V).
exists (noise_normalization K (weights_array V weights) V).
by split=> //; rewrite build_matrices_result //= ?bs_ge0.
Qed.

(** C7 (amended): [_build_matrices] makes no check on the values it is
    given.  For equal-length [q], [V] and weights (a scalar, or an array of
    the length of [V]), and a non-negative [block_size] when blocking is on,
    the assembly completes and stores [M], [j] and [H0] whatever the
    visibilities and weights are: [M] is the sum of [w h.T h] and [j] the sum
    of [w V h.T] over all data points, [h] being the basis row of the point,
    so zero and negative weights enter the sums like any others, and [H0] is
    computed from all of them. *)
Theorem build_matrices_accepts_any_values fuel (self : FourierBesselFitter K)
    q V weights :
  size q = size V -> weights_match V weights ->
  (_blocking self ==> (0 <= _block_size self)) -> (size V <= fuel)%N ->
  _build_matrices fuel self q V weights
  = Ok (built self
          (contrib_M (F_DHT self) q (weights_array V weights))
          (contrib_j (F_DHT self) q (weights_array V weights) V)
          (noise_normalization K (weights_array V weights) V)).
Proof. by move=> *; rewrite build_matrices_result. Qed.

(** C10: [FourierBesselFitter.fit] passes the name [w] to [_build_matrices];
    its parameter is called [weights], and no [w] is bound in the function
    or in the module, so every call raises [NameError] before any matrix is
    built or any regressor constructed. *)
Theorem FourierBesselFitter_fit_raises_NameError fuel
    (self : FourierBesselFitter K) q V (weights : pyval R) :
  FourierBesselFitter_fit fuel self q V weights = Raise (NameError "w").
Proof. by []. Qed.

End BuilderFacts.

(** ** The power-spectrum iteration *)

Section FrankFitterFacts.

Variable R : realFieldType.
Variable n : nat.
Variable K : numerics R n.

Notation vec := 'cV[R]_n.+1.
Notation mat := 'M[R]_n.+1.

Implicit Types (self selfA selfB : FrankFitter K) (st : loop_state K).
Implicit Types (Ykm T : mat).

Lemma bind_Ok (A B : Type) (c : result A) (k : A -> result B) (b : B) :
  (x <- c ;; k x) = Ok b -> exists2 a, c = Ok a & k a = Ok b.
Proof. by case: c => [a|e|] //= eq_k; exists a. Qed.

Lemma loop_body_Ok self Ykm T rho st st' :
  loop_body self Ykm T rho st = Ok st' ->
  [/\ st_count st' = (st_count st).+1, st_pi_old st' = st_pi st
    & fit_powerspectrum self (st_pi st') = Ok (st_fit st')].
Proof.
rewrite /loop_body => H.
have [Tr2 _ {}H] := bind_Ok H.
have [fit' eq_fit {}H] := bind_Ok H.
by case: H => <-.
Qed.

(** The loop stops only at a state where its condition fails. *)
Lemma fit_loop_exit fuel self Ykm T rho st st' :
  fit_loop fuel self Ykm T rho st = Ok st' -> ~~ loop_cond self st'.
Proof.
elim: fuel st => [|fuel IH] st /=.
  by case: ifP => // /negbT cond_st [<-].
case: ifP => [_ H|/negbT cond_st [<-] //].
have [st1 _ {}H] := bind_Ok H.
exact: IH H.
Qed.

(** The counter never goes down, and past its initial value it is bounded by
    [max_iter + 1]. *)
Lemma fit_loop_count fuel self Ykm T rho st st' :
  fit_loop fuel self Ykm T rho st = Ok st' ->
  (st_count st <= st_count st')%N
  /\ (st_count st')%:Z <= Num.max (st_count st)%:Z (_max_iter self + 1).
Proof.
elim: fuel st => [|fuel IH] st /=.
  by case: ifP => // _ [<-]; rewrite leqnn le_max lexx.
case: ifP => [/andP [_ le_mi] H|_ [<-]];
  last by rewrite leqnn le_max lexx.
have [st1 eq_body eq_loop] := bind_Ok H.
case/loop_body_Ok: eq_body => eq_count _ _.
have [le_count bound] := IH _ eq_loop.
split; first by rewrite ltnW // -eq_count.
rewrite le_max; apply/orP; right.
move: bound; rewrite eq_count le_max => /orP [|//].
move=> le1; apply: le_trans le1 _.
by rewrite -addn1 PoszD lerD2r.
Qed.

(** Enough fuel: the loop ends after at most [max_iter + 1] steps, so it
    never runs out of fuel when given that many. *)
Lemma fit_loop_terminates fuel self Ykm T rho st (m : nat) :
  _max_iter self = m%:Z -> (m.+1 - st_count st <= fuel)%N ->
  fit_loop fuel self Ykm T rho st <> OutOfFuel.
Proof.
move=> eq_mi; elim: fuel st => [|fuel IH] st /=.
  rewrite leqn0 subn_eq0 /loop_cond eq_mi lez_nat => lt_count.
  by rewrite leqNgt lt_count andbF.
move=> le_fuel; case: ifP => // /andP [_]; rewrite eq_mi lez_nat => le_count.
case eq_body: (loop_body _ _ _ _ _) => [st1|e|] //=.
  case/loop_body_Ok: eq_body => eq_count _ _; apply: IH.
  by rewrite eq_count subnS -subn1 leq_subLR add1n.
move: eq_body; rewrite /loop_body /trace2 /Dsolve.
case: (_Dchol _) => [c|] /=; last case: (_Dsvd _) => [[[U s1] V]|] //=.
  rewrite /fit_powerspectrum.
  case: (F_M _) => [M|] //=; case: (F_j _) => [j|] //=.
  case: (_H0 _) => [H0|] //=.
  rewrite /HankelRegressor_init /HankelRegressor_fit /cho_factor.
  case: (cho_factor_call K _) => [[]|c'] //=.
  by case: (svd K _) => [[U s] V].
rewrite /fit_powerspectrum.
case: (F_M _) => [M|] //=; case: (F_j _) => [j|] //=.
case: (_H0 _) => [H0|] //=.
rewrite /HankelRegressor_init /HankelRegressor_fit /cho_factor.
case: (cho_factor_call K _) => [[]|c] //=.
by case: (svd K _) => [[U' s'] V'].
Qed.

(** C1: the iteration cap is off by one.  The loop goes on while some mode is
    outside the relative tolerance and [count <= max_iter], with [count]
    starting at 0: a run that the cap stops -- it ends at a state where the
    tolerance is not met -- has performed [max_iter + 1] steps, one more than
    [max_iter]. *)
Theorem fit_loop_cap_is_max_iter_plus_one fuel self Ykm T rho st st'
    (m : nat) :
  _max_iter self = m%:Z -> st_count st = 0%N ->
  fit_loop fuel self Ykm T rho st = Ok st' -> not_converged self st' ->
  st_count st' = m.+1.
Proof.
move=> eq_mi count0 eq_loop open.
have := fit_loop_exit eq_loop; rewrite /loop_cond open /= eq_mi lez_nat.
rewrite -ltnNge => lt_m.
have [_] := fit_loop_count eq_loop.
rewrite count0 eq_mi -PoszD addn1 le_max !lez_nat => /orP [le0|le_m].
  by move: lt_m; rewrite ltnNge (leq_trans le0 (leq0n m)).
by apply/eqP; rewrite eqn_leq le_m lt_m.
Qed.

(** The state the loop starts from is not within tolerance as soon as the
    spectrum has a non-zero entry and [tol < 1]: [pi_old] is 0 there. *)
Lemma not_converged_at_start self st i :
  st_pi_old st = 0 -> _tol self < 1 -> st_pi st i 0 != 0 ->
  not_converged self st.
Proof.
move=> old0 tol1 pi_n0; apply/existsP; exists i.
by rewrite old0 mxE subr0 gtr_pMl // normr_gt0.
Qed.

(** With [tol >= 1] the first test already passes: no step is taken. *)
Lemma converged_at_start self st :
  st_pi_old st = 0 -> 1 <= _tol self -> ~~ not_converged self st.
Proof.
move=> old0 tol1; apply/existsPn => i.
by rewrite old0 mxE subr0 -leNgt ler_peMl.
Qed.

Lemma fit_loop_fitted_at fuel self Ykm T rho st st' :
  fitted_at self st -> fit_loop fuel self Ykm T rho st = Ok st' ->
  fitted_at self st'.
Proof.
elim: fuel st => [|fuel IH] st /= inv.
  by case: ifP => // _ [<-].
case: ifP => [_ H|_ [<-] //].
have [st1 eq_body eq_loop] := bind_Ok H.
by apply: IH eq_loop; case/loop_body_Ok: eq_body.
Qed.

Lemma fit_prologue_Ok fuel self q V w self1 st0 :
  fit_prologue fuel self q V w = Ok (self1, st0) ->
  exists2 bs, _build_matrices fuel (base self) q V w = Ok bs &
    [/\ self1 = with_base self bs, st_count st0 = 0%N, st_pi_old st0 = 0
      & fitted_at self1 st0].
Proof.
rewrite /fit_prologue => H.
have [bs eq_bs {}H] := bind_Ok H.
have [fit0 _ {}H] := bind_Ok H.
have [M _ {}H] := bind_Ok H.
have [j _ {}H] := bind_Ok H.
have [fit1 _ {}H] := bind_Ok H.
have [Tr2 _ {}H] := bind_Ok H.
have [fit2 eq_fit2 {}H] := bind_Ok H.
by case: H => <- <-; exists bs.
Qed.

(** What a returning [FrankFitter.fit] has computed. *)
Lemma FrankFitter_fit_Ok fuel self q V w sol f :
  FrankFitter_fit fuel self q V w = Ok (sol, f) ->
  exists bs st0 st ps_cov,
    let self1 := with_base self bs in
    let Tij := _build_smoothing_matrix self1 in
    [/\ fit_prologue fuel self q V w = Ok (self1, st0),
        fit_loop fuel self1 (coefficients (F_DHT bs)) (1%:M + Tij) 1 st0
          = Ok st,
        fit_powerspectrum self1 (st_pi st) = Ok sol,
        _ps_covariance self1 sol Tij 1 = Ok ps_cov
      & f = set_fit_result self1 bs sol (st_pi st) ps_cov].
Proof.
rewrite /FrankFitter_fit => H.
have [[self1 st0] eq_pre /= {}H] := bind_Ok H.
have [st eq_loop {}H] := bind_Ok H.
have [ps_cov eq_cov {}H] := bind_Ok H.
case: H => eq_sol eq_f.
have [bs eq_bs [eq_self1 _ _ inv0]] := fit_prologue_Ok eq_pre.
exists bs, st0, st, ps_cov => /=.
rewrite -eq_self1 -eq_sol eq_pre.
have eq_base : base self1 = bs by rewrite eq_self1.
rewrite -eq_base; split=> //.
exact: fit_loop_fitted_at inv0 eq_loop.
Qed.

(** C2 (amended): [FrankFitter.fit] returns the regressor fitted at the last
    spectrum of the iteration and stores it with that spectrum and its
    covariance; nothing in the result records how the loop ended.  Two fits
    of the same data that differ in tolerance and iteration cap and end at the
    same spectrum return the same regressor and store the same [_sol] and
    [_ps_cov], whether the loop was ended by the tolerance test or by the
    cap. *)
Theorem fit_result_has_no_convergence_flag fuel selfA selfB q V w
    solA fA solB fB :
  same_but_stopping selfA selfB ->
  FrankFitter_fit fuel selfA q V w = Ok (solA, fA) ->
  FrankFitter_fit fuel selfB q V w = Ok (solB, fB) ->
  _ps fA = _ps fB ->
  [/\ solA = solB, _sol (base fA) = _sol (base fB) & _ps_cov fA = _ps_cov fB].
Proof.
case=> eq_base eq_p0 eq_ai eq_smooth.
move=> /FrankFitter_fit_Ok [bsA [st0A [stA [pcA /= [preA _ fitA covA ->]]]]].
move=> /FrankFitter_fit_Ok [bsB [st0B [stB [pcB /= [preB _ fitB covB ->]]]]].
move=> /= [eq_pi].
have [bs1 eqA [/(congr1 (@base _ _ _)) /= eqA1 _ _ _]] :=
  fit_prologue_Ok preA.
have [bs2 eqB [/(congr1 (@base _ _ _)) /= eqB1 _ _ _]] :=
  fit_prologue_Ok preB.
have eq_bs : bsA = bsB.
  by rewrite eqA1 eqB1; move: eqA eqB; rewrite eq_base => -> [].
have eq_sol : solA = solB.
  move: fitA fitB; rewrite /fit_powerspectrum /= eq_bs eq_pi => ->.
  by case.
have eq_cov : pcA = pcB.
  move: covA covB; rewrite /_ps_covariance /_build_smoothing_matrix /=.
  by rewrite eq_bs eq_sol eq_ai eq_smooth => -> [].
by rewrite eq_sol eq_cov.
Qed.

(** C9: [log_prior] reads the name [pi] where its parameter is called [p]:
    no [pi] is bound in the function or in the module, so the call raises
    [NameError] for every spectrum (and [AttributeError] when [p] is omitted
    before any fit has stored a MAP spectrum); it never returns the prior
    density. *)
Theorem log_prior_raises self (p : option vec) :
  log_prior self p =
    if p is Some _ then Raise (NameError "pi")
    else if _ps self is Some _ then Raise (NameError "pi")
    else Raise (AttributeError "_ps").
Proof.
case: p => [p|]; rewrite /log_prior /=; first by [].
by case: (_ps self).
Qed.

End FrankFitterFacts.

(** ** The examples evaluated *)

Lemma mx11P (A B : 'M[rat]_(1, 1)) : A 0 0 = B 0 0 -> A = B.
Proof. by move=> eq00; apply/matrixP => i j; rewrite !ord1. Qed.

Lemma rat_eqbP (a b : rat) : (a == b) = true -> a = b.
Proof. by move/eqP. Qed.

Lemma bindE (A B : Type) (a : A) (k : A -> result B) :
  (x <- Ok a ;; k x) = k a.
Proof. by []. Qed.

Ltac scal := rewrite /= ?(mxE, big_ord1, big_cons, big_nil, ord1) /=.
Ltac rat_eq := apply: rat_eqbP; vm_compute; reflexivity.

Lemma build1 : _build_matrices 2 (fitter1 true 10000) q1 V1 w1 = Ok built1.
Proof.
rewrite build_matrices_result //= /built1; congr (Ok (built _ _ _ _)).
- by apply: mx11P; do !scal; rat_eq.
- by apply: mx11P; do !scal; rat_eq.
rewrite /noise_normalization; do !scal.
by rat_eq.
Qed.

Lemma posterior_precision1 (self : HankelRegressor K1) (m a : rat) :
  _M self = const_mx m ->
  _Sinv self = Some (prior_precision dht1 (const_mx a)) ->
  posterior_precision self 0 0 = pivot1 m a.
Proof. by rewrite /posterior_precision => -> ->; do !scal. Qed.

Lemma init1 (m jv a nl : rat) :
  0 < pivot1 m a ->
  HankelRegressor_init K1 dht1 (const_mx m) (const_mx jv)
    (Some (const_mx a)) nl = Ok (reg1 m jv a nl).
Proof.
move=> pos_d.
rewrite /HankelRegressor_init /HankelRegressor_fit /cho_factor /=.
rewrite /cho_factor_1.
rewrite (@posterior_precision1 _ m a) //.
rewrite pos_d /= /set_fit /reg1 /=; congr (Ok _).
congr (mkHankelRegressor _ _ _ _ _ _ _ _ _ _).
by apply: mx11P; do !scal.
Qed.

Lemma fit_powerspectrum1 (tol : rat) (mi : int) (a : rat) :
  0 < pivot1 1 a ->
  fit_powerspectrum (with_base (frank1 tol mi) built1) (const_mx a)
  = Ok (reg1 1 0 a H01).
Proof. by move=> pos; rewrite /fit_powerspectrum /= init1. Qed.

Lemma trace1_reg1 (m jv a nl : rat) :
  trace1 (const_mx 1) (reg1 m jv a nl)
  = const_mx ((1 * (jv / pivot1 m a)) ^+ 2).
Proof. by apply: mx11P; do !scal. Qed.

Lemma trace2_reg1 (m jv a nl : rat) :
  trace2 (const_mx 1) (reg1 m jv a nl)
  = Ok (const_mx (1 * (1 / pivot1 m a))).
Proof.
rewrite /trace2 /Dsolve /=; congr (Ok _).
by apply: mx11P; do !scal.
Qed.

Lemma F_DHT_built1 : F_DHT built1 = dht1.
Proof. by []. Qed.

Lemma coefficients_dht1 : coefficients dht1 = const_mx 1.
Proof. by []. Qed.

Lemma DHT_q_dht1 : DHT_q dht1 = const_mx 1.
Proof. by []. Qed.

Lemma frank1_fields (tol : rat) (mi : int) :
  [/\ _p0 (frank1 tol mi) = 2%:R^-1, _ai (frank1 tol mi) = 3%:R / 2%:R,
      _tol (frank1 tol mi) = tol & _max_iter (frank1 tol mi) = mi].
Proof. by []. Qed.

Lemma prologue1 (tol : rat) (mi : int) :
  fit_prologue 2 (frank1 tol mi) q1 V1 w1
  = Ok (with_base (frank1 tol mi) built1, st0_1).
Proof.
rewrite /fit_prologue build1 bindE.
rewrite fit_powerspectrum1 ?bindE; first by vm_compute.
rewrite !F_DHT_built1 !coefficients_dht1 !DHT_q_dht1.
rewrite [X in HankelRegressor_init _ _ _ _ (Some X)](_ : _ = const_mx 0);
  first by apply: mx11P; rewrite /np_max big_ord_recl big_ord0; do !scal;
           rat_eq.
rewrite init1 ?bindE; first by vm_compute.
set pi2 := (X in fit_powerspectrum _ X).
have eq_pi2 : pi2 = const_mx 1.
  apply: mx11P; rewrite /pi2; do !scal.
  by rat_eq.
rewrite -/pi2 eq_pi2 fit_powerspectrum1; first by vm_compute.
by [].
Qed.

Lemma Tij1_entry (tol : rat) (mi : int) : Tij1 tol mi 0 0 = 0.
Proof.
rewrite /Tij1 /_build_smoothing_matrix; do !scal.
by rewrite /Delta; do !scal; rewrite !mulr0 !mul0r.
Qed.

Lemma body1 (tol : rat) (mi : int) :
  loop_body (self1 tol mi) (const_mx 1) (1%:M + Tij1 tol mi) 1 st0_1
  = Ok st1_1.
Proof.
rewrite /loop_body [st_fit _]/= trace2_reg1 bindE.
set pi3 := (X in fit_powerspectrum _ X).
have eq_pi3 : pi3 = const_mx (3%:R / 4%:R).
  apply: mx11P; rewrite /pi3; do !scal.
  by rat_eq.
rewrite -/pi3 eq_pi3 /self1 fit_powerspectrum1; first by vm_compute.
by [].
Qed.

Lemma fit_loopS (R : realFieldType) (n : nat) (K : numerics R n) fuel
    (self : FrankFitter K) Ykm T rho st :
  fit_loop fuel.+1 self Ykm T rho st =
    if loop_cond self st
    then (st' <- loop_body self Ykm T rho st ;; fit_loop fuel self Ykm T rho st')
    else Ok st.
Proof. by []. Qed.

Lemma fit_loop_stop (R : realFieldType) (n : nat) (K : numerics R n) fuel
    (self : FrankFitter K) Ykm T rho st :
  ~~ loop_cond self st -> fit_loop fuel self Ykm T rho st = Ok st.
Proof. by case: fuel => [|fuel] /= /negbTE ->. Qed.

Lemma loop_cond1 (tol : rat) (mi : int) (st : loop_state K1) :
  loop_cond (self1 tol mi) st =
    (tol * `|st_pi st 0 0| < `|st_pi st 0 0 - st_pi_old st 0 0|)
    && ((st_count st)%:Z <= mi).
Proof.
rewrite /loop_cond /not_converged /=; congr (_ && _).
by apply/existsP/idP => [[i]|open]; [rewrite !ord1 | exists 0].
Qed.

Lemma loop_cond_st0 (tol : rat) (mi : int) :
  loop_cond (self1 tol mi) st0_1 = (tol < 1) && (0 <= mi).
Proof. by rewrite loop_cond1; do !scal; rewrite subr0 normr1 mulr1. Qed.

Lemma loop_cond_st1 (tol : rat) (mi : int) :
  loop_cond (self1 tol mi) st1_1
  = (tol * (3%:R / 4%:R) < 4%:R^-1) && (1 <= mi).
Proof.
rewrite loop_cond1; do !scal.
by congr ((_ < _) && _).
Qed.

Lemma loopA :
  fit_loop 2 (self1 tolA max_iterA) (const_mx 1)
    (1%:M + Tij1 tolA max_iterA) 1 st0_1 = Ok st1_1.
Proof.
rewrite fit_loopS loop_cond_st0.
have -> : (tolA < 1) && (0 <= max_iterA) = true by vm_compute.
rewrite body1 bindE fit_loop_stop // loop_cond_st1.
by vm_compute.
Qed.

Lemma loopB :
  fit_loop 2 (self1 tolB max_iterB) (const_mx 1)
    (1%:M + Tij1 tolB max_iterB) 1 st0_1 = Ok st1_1.
Proof.
rewrite fit_loopS loop_cond_st0.
have -> : (tolB < 1) && (0 <= max_iterB) = true by vm_compute.
rewrite body1 bindE fit_loop_stop // loop_cond_st1.
by vm_compute.
Qed.

Lemma ps_covariance1 (tol : rat) (mi : int) :
  _ps_covariance (self1 tol mi) sol1 (Tij1 tol mi) 1 = Ok ps_cov1.
Proof.
rewrite /_ps_covariance [Dsolve _ _]/= bindE [power_spectrum _]/= !bindE.
set hess := (X in cho_factor _ X).
have eq_hess : hess 0 0 = 41%:R / 49%:R.
  rewrite /hess; do !scal.
  by rat_eq.
rewrite /cho_factor /= /cho_factor_1 eq_hess.
by have -> : (0 : rat) < 41%:R / 49%:R by vm_compute.
Qed.

Lemma fit1 (tol : rat) (mi : int) :
  fit_loop 2 (self1 tol mi) (const_mx 1) (1%:M + Tij1 tol mi) 1 st0_1
    = Ok st1_1 ->
  FrankFitter_fit 2 (frank1 tol mi) q1 V1 w1 = Ok (sol1, result1 tol mi).
Proof.
move=> eq_loop; rewrite /FrankFitter_fit prologue1 bindE.
rewrite [X in fit_loop _ X](_ : _ = self1 tol mi) //.
rewrite [coefficients _]/= -/(Tij1 tol mi) eq_loop bindE.
by rewrite [st_fit _]/= -/sol1 ps_covariance1.
Qed.

Lemma not_converged1 (tol : rat) (mi : int) (st : loop_state K1) :
  not_converged (self1 tol mi) st =
    (tol * `|st_pi st 0 0| < `|st_pi st 0 0 - st_pi_old st 0 0|).
Proof.
rewrite /not_converged /=.
by apply/existsP/idP => [[i]|open]; [rewrite !ord1 | exists 0].
Qed.

Lemma open_B : not_converged (self1 tolB max_iterB) st1_1.
Proof. by rewrite not_converged1; do !scal; vm_compute. Qed.

Lemma closed_A : ~~ not_converged (self1 tolA max_iterA) st1_1.
Proof. by rewrite not_converged1; do !scal; vm_compute. Qed.

(** Witness of C1: with [max_iter = 0] the run of the example performs one
    step. *)
Lemma fit_loop_cap_witness :
  not_converged (self1 tolB max_iterB) st1_1 /\ st_count st1_1 = 1%N.
Proof.
split; first exact: open_B.
exact: (@fit_loop_cap_is_max_iter_plus_one rat 0 K1 2 (self1 tolB max_iterB)
          (const_mx 1) (1%:M + Tij1 tolB max_iterB) 1 st0_1 st1_1 0
          erefl erefl loopB open_B).
Defined.

(** Counterexample of C2. *)
Lemma capped_and_converged_fits_coincide :
  [/\ FrankFitter_fit 2 (frank1 tolA max_iterA) q1 V1 w1
        = Ok (sol1, result1 tolA max_iterA)
        /\ ~~ not_converged (self1 tolA max_iterA) st1_1,
      FrankFitter_fit 2 (frank1 tolB max_iterB) q1 V1 w1
        = Ok (sol1, result1 tolB max_iterB)
        /\ not_converged (self1 tolB max_iterB) st1_1,
      _sol (base (result1 tolA max_iterA))
        = _sol (base (result1 tolB max_iterB)),
      _ps (result1 tolA max_iterA) = _ps (result1 tolB max_iterB)
    & _ps_cov (result1 tolA max_iterA) = _ps_cov (result1 tolB max_iterB)].
Proof.
split=> //.
- by split; [exact: fit1 loopA | exact: closed_A].
- by split; [exact: fit1 loopB | exact: open_B].
Qed.

Lemma fit_result_flag_witness :
  [/\ sol1 = sol1,
      _sol (base (result1 tolA max_iterA))
        = _sol (base (result1 tolB max_iterB))
    & _ps_cov (result1 tolA max_iterA) = _ps_cov (result1 tolB max_iterB)].
Proof.
apply: (@fit_result_has_no_convergence_flag rat 0 K1 2
          (frank1 tolA max_iterA) (frank1 tolB max_iterB) q1 V1 w1
          sol1 (result1 tolA max_iterA) sol1 (result1 tolB max_iterB)).
- by split.
- exact: fit1 loopA.
- exact: fit1 loopB.
- by [].
Defined.

(** C5 witness: the spectrum [[-1]]. *)
Lemma Sinv_negative_entry_witness :
  [/\ forall i, where_pos_inv (const_mx (-1) : 'cV[rat]_1) i 0
         = if 0 < (const_mx (-1) : 'cV[rat]_1) i 0
           then 1 / (const_mx (-1) : 'cV[rat]_1) i 0 else 0,
      prior_precision dht1 (set_entry (const_mx (-1)) 0 0)
        = prior_precision dht1 (const_mx (-1))
    & result_map (@_Sinv _ _ K1)
        (HankelRegressor_init K1 dht1 (const_mx 1) (const_mx 0)
           (Some (set_entry (const_mx (-1)) 0 0)) 0) =
      result_map (@_Sinv _ _ K1)
        (HankelRegressor_init K1 dht1 (const_mx 1) (const_mx 0)
           (Some (const_mx (-1))) 0)].
Proof.
apply: (@Sinv_negative_entry_as_zero rat 0 K1 dht1 (const_mx 1) (const_mx 0)
          (const_mx (-1)) 0 0).
by rewrite mxE; vm_compute.
Defined.

(** C4 witness: the precision [[0]] (no data, no prior) is not positive
    definite. *)
Lemma cho_factor_zero : cho_factor K1 (Dinv_of dht1 0 None) = Raise LinAlgError.
Proof.
by rewrite /cho_factor /= /cho_factor_1 /Dinv_of; do !scal.
Qed.

Lemma fit_cholesky_then_svd_witness :
  exists2 self,
    HankelRegressor_init K1 dht1 0 (const_mx 1) None 0 = Ok self &
    match cho_factor K1 (Dinv_of dht1 0 None) with
    | Ok c => recorded_by_cholesky self c
    | _ => recorded_by_svd self (Dinv_of dht1 0 None)
    end.
Proof.
apply: (@fit_cholesky_then_svd rat 0 K1 dht1 0 (const_mx 1) None 0).
by right; exact: cho_factor_zero.
Defined.

(** C4 counterexample: no positive threshold. *)
Lemma no_threshold_for_small_singular_values :
  ~ exists eps : rat, 0 < eps /\ @zeroes_below rat 0 eps.
Proof.
case=> eps [eps_gt0 zero_below].
have := zero_below (const_mx eps) 0.
rewrite /where_pos_inv !mxE eps_gt0 lexx => /(_ isT) /eqP.
by rewrite mul1r invr_eq0 gt_eqF.
Qed.

(** C6 witness: three data points, chunks of two. *)
Lemma blocked_and_unblocked_witness :
  exists M j H0,
    [/\ _build_matrices 3 (with_blocking (fitter1 true 1) true)
          [:: 1; 2%:R; 3%:R] [:: 1; 0; 2%:R] (PyArray [:: 1; 1; 2%:R])
         = Ok (built (with_blocking (fitter1 true 1) true) M j H0),
        _build_matrices 3 (with_blocking (fitter1 true 1) false)
          [:: 1; 2%:R; 3%:R] [:: 1; 0; 2%:R] (PyArray [:: 1; 1; 2%:R])
         = Ok (built (with_blocking (fitter1 true 1) false) M j H0)
      & M = contrib_M (F_DHT (fitter1 true 1)) [:: 1; 2%:R; 3%:R]
              (weights_array [:: 1; 0; 2%:R] (PyArray [:: 1; 1; 2%:R]))].
Proof.
exact: (@blocked_and_unblocked_agree rat 0 K1 3 (fitter1 true 1)
          [:: 1; 2%:R; 3%:R] [:: 1; 0; 2%:R] (PyArray [:: 1; 1; 2%:R])
          erefl isT isT isT).
Defined.

(** C7 witness and counterexample: zero and negative weights. *)
Lemma build_matrices_any_values_witness :
  _build_matrices 2 (fitter1 true 10000) [:: 1; 2%:R] [:: 1; 1]
    (PyArray [:: 0; -1])
  = Ok (built (fitter1 true 10000)
          (contrib_M dht1 [:: 1; 2%:R]
             (weights_array [:: 1; 1] (PyArray [:: 0; -1])))
          (contrib_j dht1 [:: 1; 2%:R]
             (weights_array [:: 1; 1] (PyArray [:: 0; -1])) [:: 1; 1])
          (noise_normalization K1
             (weights_array [:: 1; 1] (PyArray [:: 0; -1])) [:: 1; 1])).
Proof.
exact: (@build_matrices_accepts_any_values rat 0 K1 2 (fitter1 true 10000)
          [:: 1; 2%:R] [:: 1; 1] (PyArray [:: 0; -1]) erefl isT isT isT).
Defined.

Lemma zero_weights_are_accepted :
  exists H0 : rat,
    _build_matrices 1 (fitter1 true 10000) [:: 1] [:: 1] (PyArray [:: 0])
    = Ok (built (fitter1 true 10000) 0 0 H0).
Proof.
eexists; rewrite build_matrices_result //=.
congr (Ok (built _ _ _ _)).
- by apply: mx11P; do !scal; rat_eq.
- by apply: mx11P; do !scal; rat_eq.
Qed.

(** ** Further properties of the posterior solver *)

Section SolverProperties.

Variable R : realFieldType.
Variable n : nat.
Variable K : numerics R n.

Notation vec := 'cV[R]_n.+1.
Notation mat := 'M[R]_n.+1.

Implicit Types (dht : DiscreteHankelTransform R n) (M : mat) (j : vec).
Implicit Types (p : option vec) (self : HankelRegressor K).

Lemma prior_precision_mulmx dht (p : vec) :
  prior_precision dht p
  = (coefficients dht)^T *m diag_mx (where_pos_inv p)^T *m coefficients dht.
Proof.
apply/matrixP => i k; rewrite /prior_precision /einsum_ji_j_jk !mxE.
apply: eq_bigr => a _; rewrite mul_mx_diag !mxE.
by [].
Qed.

Lemma where_pos_inv_ge0 (x : vec) i : 0 <= where_pos_inv x i 0.
Proof.
rewrite where_pos_invE; case: ifP => // x_gt0.
by rewrite mul1r invr_ge0 ltW.
Qed.

Lemma quad_form_diag (Y : mat) (d x : vec) :
  quad_form (Y^T *m diag_mx d^T *m Y) x = \sum_a d a 0 * ((Y *m x) a 0) ^+ 2.
Proof.
rewrite /quad_form -!mulmxA mulmxA -trmx_mul !mxE.
apply: eq_bigr => a _; rewrite mul_diag_mx !mxE.
by rewrite expr2 mulrCA mulrA.
Qed.

Lemma prior_precision_sym dht (p : vec) :
  (prior_precision dht p)^T = prior_precision dht p.
Proof.
apply/matrixP => i k; rewrite !mxE; apply: eq_bigr => a _.
by rewrite mulrC [X in _ * X]mulrC mulrA.
Qed.

Lemma prior_precision_psd dht (p x : vec) :
  0 <= quad_form (prior_precision dht p) x.
Proof.
rewrite prior_precision_mulmx quad_form_diag.
apply: sumr_ge0 => a _; apply: mulr_ge0; first exact: where_pos_inv_ge0.
exact: sqr_ge0.
Qed.

(** X2: The prior precision is symmetric and positive semi-definite for every
    spectrum, whatever the signs of its entries. *)
Theorem prior_precision_sym_psd dht (p : vec) :
  (prior_precision dht p)^T = prior_precision dht p
  /\ forall x : vec, 0 <= quad_form (prior_precision dht p) x.
Proof. by split; [exact: prior_precision_sym | exact: prior_precision_psd]. Qed.

(** A factor [c] solves the systems of [A] when [cho_solve(c, b)] is a
    solution of [A x = b] for every right-hand side. *)
Lemma right_inverse_sym (A C : mat) :
  A^T = A -> A *m C = 1%:M -> C^T = C.
Proof.
move=> symA AC.
have CA : C *m A = 1%:M by apply: mulmx1C.
have ACt : A *m C^T = 1%:M by rewrite -[in LHS]symA -trmx_mul CA trmx1.
by rewrite -[LHS]mul1mx -CA -mulmxA ACt mulmx1.
Qed.

(** X3: On the Cholesky path, when the factor solves the systems of [Dinv], the
    mean is the solution of the normal equations, the covariance is the
    inverse of [Dinv], and it is symmetric as soon as [M] is. *)
Theorem cholesky_path_inverts_precision dht M j p nl c :
  cho_factor K (Dinv_of dht M p) = Ok c ->
  (forall (k : nat) (b : 'M[R]_(n.+1, k)),
     Dinv_of dht M p *m cho_solve c b = b) ->
  exists self C,
    [/\ HankelRegressor_init K dht M j p nl = Ok self,
        result_map fst (covariance self) = Ok (Array2 C),
        Dinv_of dht M p *m mean self = j,
        Dinv_of dht M p *m C = 1%:M /\ C *m Dinv_of dht M p = 1%:M
      & mean self = C *m j /\ (M^T = M -> C^T = C)].
Proof.
move=> eq_c solves; rewrite (init_cholesky_path j nl eq_c).
have DC := solves _ 1%:M.
have CD : cho_solve c 1%:M *m Dinv_of dht M p = 1%:M by apply: mulmx1C.
eexists; exists (cho_solve c 1%:M); split=> //=.
split; first by rewrite -[j in RHS](solves _ j) mulmxA CD mul1mx.
move=> symM; apply: right_inverse_sym DC.
rewrite /Dinv_of linearD /= symM; congr (_ + _).
case: (p) => [p'|]; last by rewrite trmx0.
exact: prior_precision_sym.
Qed.

Lemma col_scale_diag (x s1 : vec) :
  \col_i (x i 0 * s1 i 0) = diag_mx s1^T *m x.
Proof. by apply/colP => i; rewrite mul_diag_mx !mxE mulrC. Qed.

Lemma svd_solve_Array1 (U V : mat) (s1 v : vec) :
  svd_solve U s1 V (Array1 v) = Array1 (V^T *m (diag_mx s1^T *m (U^T *m v))).
Proof. by rewrite /svd_solve /= col_scale_diag. Qed.

Lemma diag_where_pos_inv (s : vec) :
  diag_mx s^T *m diag_mx (where_pos_inv s)^T
  = diag_mx (\row_i (if 0 < s i 0 then 1 else 0)).
Proof.
rewrite mulmx_diag; congr diag_mx; apply/rowP => i.
rewrite !mxE; case: ltP => [s_gt0|_]; last by rewrite mulr0.
by rewrite mul1r divff // gt_eqF.
Qed.

(** X4: On the fallback path the mean is the pseudo-inverse solution: for a
    singular value decomposition [Dinv = U diag(s) Vh] with orthogonal
    factors, [Dinv mean] is [j] projected on the left singular vectors of the
    positive singular values, and it is [j] when all of them are positive. *)
Theorem svd_path_mean_solves dht M j p nl (U V : mat) (s : vec) :
  cho_factor K (Dinv_of dht M p) = Raise LinAlgError ->
  svd K (Dinv_of dht M p) = (U, s, V) ->
  Dinv_of dht M p = U *m diag_mx s^T *m V ->
  U *m U^T = 1%:M -> V *m V^T = 1%:M ->
  exists2 self, HankelRegressor_init K dht M j p nl = Ok self &
    Dinv_of dht M p *m mean self
      = U *m diag_mx (\row_i (if 0 < s i 0 then 1 else 0)) *m U^T *m j
    /\ ((forall i, 0 < s i 0) -> Dinv_of dht M p *m mean self = j).
Proof.
move=> eq_c eq_svd eq_D UU VV; rewrite (init_svd_path j nl eq_c eq_svd).
eexists; first by reflexivity.
rewrite /mean /= col_scale_diag.
have eq_proj : Dinv_of dht M p
                 *m (V^T *m (diag_mx (where_pos_inv s)^T *m (U^T *m j)))
               = U *m diag_mx (\row_i (if 0 < s i 0 then 1 else 0)) *m U^T *m j.
  rewrite eq_D !mulmxA -[U *m _ *m V *m _]mulmxA VV mulmx1.
  by rewrite -[U *m _ *m _]mulmxA diag_where_pos_inv.
split=> // s_gt0; rewrite eq_proj.
have -> : \row_i (if 0 < s i 0 then 1 else 0) = const_mx 1 :> 'rV[R]_n.+1.
  by apply/rowP => i; rewrite !mxE s_gt0.
by rewrite diag_const_mx mulmx1 UU mul1mx.
Qed.

Lemma col_mul_diag (A : mat) (d : vec) k :
  col k (A *m diag_mx d^T) = d k 0 *: col k A.
Proof. by apply/colP => i; rewrite mxE mul_mx_diag !mxE mulrC. Qed.

(** X5: With the fallback factorisation [Dsolve] treats a matrix and a vector
    differently: column [k] of the result for a matrix [b] is [s1[k]] times
    [V.T U.T b[:, k]], where the result for the vector [b[:, k]] is
    [V.T diag(s1) U.T b[:, k]]. *)
Theorem svd_path_Dsolve_scales_columns self (U V : mat) (s1 : vec) (b : mat) :
  _Dchol self = None -> _Dsvd self = Some (U, s1, V) ->
  exists2 X : mat, Dsolve self (Array2 b) = Ok (Array2 X) &
    forall k,
      col k X = s1 k 0 *: (V^T *m (U^T *m col k b))
      /\ Dsolve self (Array1 (col k b))
         = Ok (Array1 (V^T *m (diag_mx s1^T *m (U^T *m col k b)))).
Proof.
move=> eq_chol eq_svd; rewrite /Dsolve eq_chol eq_svd.
eexists; first by rewrite svd_solve_Array2.
move=> k; split; last by rewrite svd_solve_Array1.
by rewrite col_mul_diag !colE !mulmxA.
Qed.

(** X6: The [covariance] property is computed once: the array it returns is
    stored, a second read returns the stored array and the object it leaves
    behind is not changed again. *)
Theorem covariance_is_cached self c self' :
  covariance self = Ok (c, self') ->
  [/\ covariance self' = Ok (c, self'), _cov self' = Some c,
      mean self' = mean self & forall b, Dsolve self' b = Dsolve self b].
Proof.
rewrite /covariance; case eq_cov: (_cov self) => [c0|].
  by case=> <- <-; rewrite eq_cov.
by case: (Dsolve self _) => [c1|e|] //= [<- <-].
Qed.

Lemma vdotC (x y : vec) : vdot x y = vdot y x.
Proof. by apply: eq_bigr => i _; rewrite mulrC. Qed.

(** X7: The joint log-likelihood at the posterior mean: on the Cholesky path,
    when the factor solves the systems of [Dinv], the two data terms cancel
    and [log_likelihood(mean)] is the prior normalisation (when there is a
    prior) plus the noise constant. *)
Theorem joint_log_likelihood_at_mean dht M j p nl c :
  cho_factor K (Dinv_of dht M p) = Ok c ->
  (forall (k : nat) (b : 'M[R]_(n.+1, k)),
     Dinv_of dht M p *m cho_solve c b = b) ->
  exists2 self, HankelRegressor_init K dht M j p nl = Ok self &
    log_likelihood self (Some (mean self))
    = Ok ((if p is Some p'
           then 2%:R^-1
                * (slogdet K ((2%:R * np_pi K) *: prior_precision dht p')).2
           else 0) + nl).
Proof.
move=> eq_c solves; rewrite (init_cholesky_path j nl eq_c).
eexists; first by reflexivity.
rewrite /log_likelihood /mean /= posterior_precision_init solves.
by rewrite [vdot (cho_solve c j) j]vdotC subrr; case: (p) => [p'|] /=;
   rewrite ?add0r.
Qed.

End SolverProperties.

(** ** Further properties of the design-matrix builder *)

Section BuilderProperties.

Variable R : realFieldType.
Variable n : nat.
Variable K : numerics R n.

Notation vec := 'cV[R]_n.+1.
Notation mat := 'M[R]_n.+1.

Implicit Types (dht : DiscreteHankelTransform R n) (q w V : seq R).
Implicit Types (self : FourierBesselFitter K).

Lemma contrib_M_sym dht qs ws :
  (contrib_M dht qs ws)^T = contrib_M dht qs ws.
Proof.
apply/matrixP => a b; rewrite !mxE; apply: eq_bigr => t _.
by rewrite mulrC [X in _ * X]mulrC mulrA.
Qed.

Lemma quad_formD (A B : mat) (x : vec) :
  quad_form (A + B) x = quad_form A x + quad_form B x.
Proof. by rewrite /quad_form mulmxDr mulmxDl mxE. Qed.

Lemma quad_form_rank1 (h : 'rV[R]_n.+1) (c : R) (x : vec) :
  quad_form (h^T *m (c *: h)) x = c * ((h *m x) 0 0) ^+ 2.
Proof.
rewrite /quad_form mulmxA -trmx_mul -mulmxA -scalemxAl.
by rewrite mxE big_ord1 !mxE mulrCA expr2.
Qed.

Lemma quad_form_contrib_M dht qs ws (x : vec) :
  quad_form (contrib_M dht qs ws) x
  = \sum_(t <- zip qs ws) t.2 * ((coefficients_at dht t.1 *m x) 0 0) ^+ 2.
Proof.
rewrite /contrib_M; elim: (zip qs ws) => [|t l IH].
  rewrite big_nil (_ : \matrix_(a, b) _ = 0) /quad_form ?mulmx0 ?mul0mx ?mxE //.
  by apply/matrixP => a b; rewrite !mxE big_nil.
rewrite big_cons -IH -quad_form_rank1 -quad_formD.
congr (quad_form _ x); apply/matrixP => a b.
by rewrite !mxE big_cons big_ord1 !mxE mulrA.
Qed.

Lemma contrib_M_psd dht qs ws (x : vec) :
  all (fun c => 0 <= c) ws -> 0 <= quad_form (contrib_M dht qs ws) x.
Proof.
rewrite quad_form_contrib_M.
elim: qs ws => [|c qs IH] [|d ws] /=; rewrite ?big_nil //.
case/andP => d_ge0 /IH rest_ge0; rewrite big_cons /=.
by rewrite addr_ge0 // mulr_ge0 // sqr_ge0.
Qed.

(** X8: The design matrix that [_build_matrices] stores is symmetric, and
    positive semi-definite when no weight is negative. *)
Theorem built_M_sym_psd fuel self q V weights :
  size q = size V -> weights_match V weights ->
  (_blocking self ==> (0 <= _block_size self)) -> (size V <= fuel)%N ->
  exists bs M,
    [/\ _build_matrices fuel self q V weights = Ok bs, F_M bs = Some M,
        M^T = M
      & all (fun c => 0 <= c) (weights_array V weights) ->
        forall x : vec, 0 <= quad_form M x].
Proof.
move=> eq_q w_ok bs_ok le_fuel; rewrite build_matrices_result //=.
eexists; eexists; split; [by [] | by [] | exact: contrib_M_sym |].
by move=> w_ge0 x; apply: contrib_M_psd.
Qed.

(** A chunk length that the loop can use: positive, or the data is empty. *)
Lemma chunk_step_nat self V :
  (_blocking self ==> (0 <= _block_size self)) ->
  exists2 k : nat, (0 < k)%N || (size V == 0)%N & chunk_step self V = k%:Z.
Proof.
rewrite /chunk_step; case: (_blocking self) => /= [bs_ge0|_].
  by have [k k_gt0 ->] := int_div_plus1_pos (ltn0Sn n) bs_ge0; exists k;
     rewrite ?k_gt0.
by exists (size V); rewrite // lt0n orNb.
Qed.

Lemma build_loop_short_q dht q w V (k : nat) :
  (0 < k)%N -> (size q < size V)%N -> size w = size V ->
  forall fuel (s : nat) (M : mat) (j : vec),
    (s <= size q)%N -> (size V <= s + fuel)%N ->
    build_loop fuel dht q w V k%:Z s%:Z (s + k)%:Z M j = Raise ValueError.
Proof.
move=> k_gt0 lt_qV eq_w; elim=> [|fuel IH] s M j le_sq le_fuel /=.
  move: le_fuel; rewrite addn0 => le_Vs.
  by have := leq_ltn_trans (leq_trans le_Vs le_sq) lt_qV; rewrite ltnn.
rewrite ltz_nat (leq_ltn_trans le_sq lt_qV) !py_slice_nat addKn.
case: (leqP (s + k) (size q)) => [le_skq|lt_qsk].
  have sz x : (s + k <= size x)%N -> size (take k (drop s x)) = k.
    move=> le_x; apply: size_takel; rewrite size_drop.
    by rewrite leq_subRL // (leq_trans (leq_addr k s)).
  have le_skV : (s + k <= size V)%N by rewrite (leq_trans le_skq) // ltnW.
  rewrite /chunk_shapes_ok /broadcast_ws !sz ?eq_w // !eqxx /=.
  rewrite -PoszD IH //.
  by rewrite -addnA (leq_trans le_fuel) // leq_add2l -addn1 addnC leq_add2r.
rewrite /chunk_shapes_ok; suff /negbTE -> : size (take k (drop s V))
    != size (take k (drop s q)) by rewrite andbF.
rewrite !size_take !size_drop.
have -> : (k < size q - s)%N = false by rewrite ltn_subRL ltnNge (ltnW lt_qsk).
rewrite neq_ltn; apply/orP; right.
case: ifP => [_|_]; first by rewrite ltn_subLR.
by rewrite ltn_sub2r // (leq_ltn_trans le_sq).
Qed.

(** X9: Fewer frequencies than visibilities: with a scalar weight or a weight
    per visibility, the assembly raises [ValueError], with blocking and
    without it. *)
Theorem short_q_raises_ValueError fuel self q V weights :
  (size q < size V)%N -> weights_match V weights ->
  (_blocking self ==> (0 <= _block_size self)) -> (size V <= fuel)%N ->
  _build_matrices fuel self q V weights = Raise ValueError.
Proof.
move=> lt_qV /broadcast_weights_match [eq_b eq_w] bs_ok le_fuel.
rewrite /_build_matrices eq_b /=.
have [k k_ok ->] := chunk_step_nat V bs_ok.
case/orP: k_ok => [k_gt0|/eqP V0]; last by rewrite V0 in lt_qV.
rewrite -[k%:Z in X in build_loop _ _ _ _ _ _ _ X]add0r -PoszD.
by rewrite (build_loop_short_q (F_DHT self) k_gt0 lt_qV eq_w).
Qed.

Lemma build_loop_done fuel dht q w V (k s e : int) (M : mat) (j : vec) :
  (size V)%:Z <= s -> build_loop fuel dht q w V k s e M j = Ok (M, j).
Proof. by case: fuel => [|fuel] /=; rewrite ltNge => ->. Qed.

Lemma py_slice_take (T : Type) (a : seq T) (m : nat) :
  py_slice (take m a) 0 m%:Z = py_slice a 0 m%:Z.
Proof.
rewrite (py_slice_nat _ 0 m) (py_slice_nat _ 0 m) !subn0 !drop0.
by rewrite -take_min minnn.
Qed.

(** X10: Without blocking the single chunk is [q[0:len(V)]]: entries of [q]
    beyond the length of [V] are never read, and the sums are those over the
    first [len(V)] frequencies. *)
Theorem unblocked_ignores_trailing_q fuel self q V weights :
  ~~ _blocking self -> (size V <= size q)%N -> weights_match V weights ->
  (size V <= fuel)%N ->
  let w := weights_array V weights in
  let q' := take (size V) q in
  _build_matrices fuel self q V weights
  = Ok (built self (contrib_M (F_DHT self) q' w)
          (contrib_j (F_DHT self) q' w V) (noise_normalization K w V)).
Proof.
move=> /negbTE not_blocking le_Vq w_ok le_fuel w q'.
have eq_q' : size q' = size V by rewrite size_take; case: ltngtP le_Vq.
have bs_ok : _blocking self ==> (0 <= _block_size self).
  by rewrite not_blocking.
rewrite -(build_matrices_result eq_q' w_ok bs_ok le_fuel).
rewrite /_build_matrices /chunk_step not_blocking.
case: (broadcast_weights V weights) => [w0|e|] //=.
case: fuel {le_fuel} => [|fuel] //=.
by rewrite py_slice_take add0r !build_loop_done.
Qed.

(** X11: A scalar weight, the array holding it once, and the array repeating it
    for every visibility are assembled alike. *)
Theorem scalar_weight_is_constant_array fuel self q V (x : R) :
  _build_matrices fuel self q V (PyArray [:: x])
    = _build_matrices fuel self q V (PyFloat x)
  /\ _build_matrices fuel self q V (PyArray (nseq (size V) x))
    = _build_matrices fuel self q V (PyFloat x).
Proof.
have eq_w : [seq 1 * y | y <- nseq (size V) x] = [seq 1 * x | _ <- V].
  by rewrite map_nseq; elim: V => //= _ V ->.
rewrite /_build_matrices /= size_nseq eqxx eq_w; split=> //.
case: eqP => [|_] //.
by case: V {eq_w} => [|v [|]].
Qed.

(** X12: A weights array whose length is neither that of [V] nor 1 cannot be
    broadcast against [V]: [ValueError], unless [V] itself has one entry. *)
Theorem weights_of_wrong_length_raise fuel self q V (a : seq R) :
  size a != size V -> size a != 1%N -> size V != 1%N ->
  _build_matrices fuel self q V (PyArray a) = Raise ValueError.
Proof.
by rewrite /_build_matrices /= => /negbTE -> /negbTE -> /negbTE ->.
Qed.

End BuilderProperties.

(** ** The covariance of a valid fit *)

Section CovarianceInvariant.

Variable R : realFieldType.
Variable n : nat.
Variable K : numerics R n.

Notation vec := 'cV[R]_n.+1.
Notation mat := 'M[R]_n.+1.

Implicit Types (dht : DiscreteHankelTransform R n) (M : mat) (j : vec).
Implicit Types (p : option vec).






End CovarianceInvariant.

(** ** Further properties of the fitters *)

Section FitterProperties.

Variable R : realFieldType.
Variable n : nat.
Variable K : numerics R n.

Notation vec := 'cV[R]_n.+1.
Notation mat := 'M[R]_n.+1.

Implicit Types (self : FrankFitter K) (st : loop_state K) (Ykm T : mat).

(** X1: Neither fitter can be constructed: [FourierBesselFitter.__init__] calls
    the name [DiscreteHankelTransform], which the module neither defines nor
    imports, and [FrankFitter.__init__] starts with that constructor. *)
Theorem constructors_raise_NameError
    (call : pyval R -> result (DiscreteHankelTransform R n))
    (Rmax : R) (nu : int) (alpha p_0 w_smooth tol : R) (max_iter : int)
    (block_data : bool) (block_size : int) :
  FourierBesselFitter_init K call Rmax nu block_data block_size
    = Raise (NameError "DiscreteHankelTransform")
  /\ FrankFitter_init K call Rmax nu alpha p_0 w_smooth tol max_iter
       block_data block_size
    = Raise (NameError "DiscreteHankelTransform").
Proof. by []. Qed.

(** X17: After a fit that returns, [MAP_solution] is the returned regressor, its
    power spectrum is [MAP_spectrum], the covariance is stored, and fitting
    the stored spectrum again gives the same regressor. *)
Theorem fit_stores_MAP_solution fuel self q V w sol f :
  FrankFitter_fit fuel self q V w = Ok (sol, f) ->
  exists pi ps_cov,
    [/\ MAP_solution f = Ok sol, MAP_spectrum f = Ok pi,
        MAP_spectrum_covariance f = Ok ps_cov,
        power_spectrum sol = Some pi
      & fit_powerspectrum f pi = Ok sol].
Proof.
move=> /FrankFitter_fit_Ok [bs [st0 [st [ps_cov /= [_ _ eq_sol _ ->]]]]].
exists (st_pi st), ps_cov; split=> //.
move: eq_sol; rewrite /fit_powerspectrum /=.
case: (F_M bs) => [M|] //=; case: (F_j bs) => [j|] //=.
case: (_H0 bs) => [H0|] //=.
by rewrite /HankelRegressor_init /power_spectrum => /fit_frame [_ _ ->].
Qed.

Lemma bind_not_OutOfFuel (A B : Type) (c : result A) (k : A -> result B) :
  c <> OutOfFuel -> (forall a, c = Ok a -> k a <> OutOfFuel) ->
  (x <- c ;; k x) <> OutOfFuel.
Proof. by case: c => [a|e|] //= _ /(_ a erefl). Qed.

Lemma init_not_OutOfFuel dht (M : mat) (j : vec) (p : option vec) nl :
  HankelRegressor_init K dht M j p nl <> OutOfFuel.
Proof.
rewrite /HankelRegressor_init /HankelRegressor_fit /cho_factor.
case: (cho_factor_call K _) => [[]|c] //=.
by case: (svd K _) => [[U s] V].
Qed.

Lemma getattr_not_OutOfFuel (A : Type) name (a : option A) :
  getattr name a <> OutOfFuel.
Proof. by case: a. Qed.

Lemma fit_powerspectrum_not_OutOfFuel self (p : vec) :
  fit_powerspectrum self p <> OutOfFuel.
Proof.
rewrite /fit_powerspectrum.
do 3![apply: bind_not_OutOfFuel => [|? _]; first exact: getattr_not_OutOfFuel].
exact: init_not_OutOfFuel.
Qed.

Lemma Dsolve_not_OutOfFuel (fit : HankelRegressor K) b :
  Dsolve fit b <> OutOfFuel.
Proof.
rewrite /Dsolve; case: (_Dchol fit) => [c|] //.
by case: (_Dsvd fit) => [[[U s1] V]|].
Qed.

Lemma trace2_not_OutOfFuel Ykm (fit : HankelRegressor K) :
  trace2 Ykm fit <> OutOfFuel.
Proof.
rewrite /trace2; apply: bind_not_OutOfFuel => [|X _].
  exact: Dsolve_not_OutOfFuel.
by case: X.
Qed.

Lemma ps_covariance_not_OutOfFuel self (fit : HankelRegressor K) T (rho : R) :
  _ps_covariance self fit T rho <> OutOfFuel.
Proof.
rewrite /_ps_covariance; apply: bind_not_OutOfFuel => [|X _].
  exact: Dsolve_not_OutOfFuel.
apply: bind_not_OutOfFuel => [|Dqq _]; first by case: X.
apply: bind_not_OutOfFuel => [|p _]; first by case: (power_spectrum fit).
by rewrite /cho_factor; case: (cho_factor_call K _).
Qed.

(** X13: [FrankFitter.fit] terminates: for equal-length data, one unit of fuel
    per visibility and [max_iter + 1] units for the iteration are enough for
    the call to return or to raise. *)
Theorem FrankFitter_fit_terminates fuel self q V w (m : nat) :
  size q = size V -> weights_match V w ->
  (_blocking (base self) ==> (0 <= _block_size (base self))) ->
  _max_iter self = m%:Z -> (size V <= fuel)%N -> (m < fuel)%N ->
  FrankFitter_fit fuel self q V w <> OutOfFuel.
Proof.
move=> eq_q w_ok bs_ok eq_mi le_V lt_m.
rewrite /FrankFitter_fit; apply: bind_not_OutOfFuel => [|[self1 st0] eq_pre].
  rewrite /fit_prologue build_matrices_result //=.
  apply: bind_not_OutOfFuel => [|fit0 _].
    exact: fit_powerspectrum_not_OutOfFuel.
  apply: bind_not_OutOfFuel => [|fit1 _]; first exact: init_not_OutOfFuel.
  apply: bind_not_OutOfFuel => [|Tr2 _]; first exact: trace2_not_OutOfFuel.
  apply: bind_not_OutOfFuel => [|fit2 _] //.
  exact: fit_powerspectrum_not_OutOfFuel.
have [bs _ [eq_self1 count0 _ _]] := fit_prologue_Ok eq_pre.
apply: bind_not_OutOfFuel => [|st _] /=.
  apply: (@fit_loop_terminates _ _ _ _ _ _ _ _ _ m); first by rewrite eq_self1.
  by rewrite count0 subn0.
apply: bind_not_OutOfFuel => [|ps_cov _] //.
exact: ps_covariance_not_OutOfFuel.
Qed.

(** X15: The first convergence test compares the spectrum with [pi_old = 0]: for
    [tol < 1] and a spectrum with a non-zero entry it fails, so a run that
    is allowed any iteration ([max_iter >= 0]) performs at least one. *)
Theorem first_test_forces_a_step fuel self q V w self1 st Ykm T rho st' i :
  fit_prologue fuel self q V w = Ok (self1, st) ->
  _tol self < 1 -> 0 <= _max_iter self -> st_pi st i 0 != 0 ->
  fit_loop fuel self1 Ykm T rho st = Ok st' -> (0 < st_count st')%N.
Proof.
move=> /fit_prologue_Ok [bs _ [eq_self1 count0 old0 _]] tol1 mi_ge0 pi_n0.
have cond : loop_cond self1 st.
  rewrite /loop_cond count0 eq_self1 /= mi_ge0 andbT -eq_self1.
  by apply: (@not_converged_at_start _ _ _ _ _ i); rewrite // eq_self1.
case: fuel => [|fuel] /=; rewrite cond // => H.
have [st1 /loop_body_Ok [eq_count _ _] /fit_loop_count [le_count _]] :=
  bind_Ok H.
by rewrite (leq_trans _ le_count) // eq_count.
Qed.

(** X16: With [tol >= 1] the first test already passes: the loop performs no
    step, so [fit] goes from the unsmoothed update straight to
    [_ps_covariance]; when it returns, the regressor it returns and stores
    is the one fitted at the spectrum of the unsmoothed update, and that
    spectrum is the one stored as the MAP spectrum. *)
Theorem tolerance_at_least_one_skips_loop fuel self q V w self1 st :
  fit_prologue fuel self q V w = Ok (self1, st) -> 1 <= _tol self ->
  [/\ forall Ykm T rho, fit_loop fuel self1 Ykm T rho st = Ok st,
      FrankFitter_fit fuel self q V w
      = (ps_cov <- _ps_covariance self1 (st_fit st)
                     (_build_smoothing_matrix self1) 1 ;;
         Ok (st_fit st,
             set_fit_result self1 (base self1) (st_fit st) (st_pi st) ps_cov))
    & forall sol f,
        FrankFitter_fit fuel self q V w = Ok (sol, f) ->
        [/\ sol = st_fit st, MAP_solution f = Ok (st_fit st)
          & MAP_spectrum f = Ok (st_pi st)]].
Proof.
move=> eq_pre tol1.
have [bs _ [eq_self1 _ old0 _]] := fit_prologue_Ok eq_pre.
have skip Ykm T rho : fit_loop fuel self1 Ykm T rho st = Ok st.
  apply: fit_loop_stop; rewrite /loop_cond negb_and; apply/orP; left.
  by apply: converged_at_start; rewrite // eq_self1.
have eq_fit : FrankFitter_fit fuel self q V w
      = (ps_cov <- _ps_covariance self1 (st_fit st)
                     (_build_smoothing_matrix self1) 1 ;;
         Ok (st_fit st,
             set_fit_result self1 (base self1) (st_fit st) (st_pi st) ps_cov)).
  by rewrite /FrankFitter_fit eq_pre /= skip.
split=> // sol f; rewrite eq_fit.
by case: (_ps_covariance _ _ _ _) => [ps_cov|e|] //= [<- <-].
Qed.

(** X14: Starting from [count = 0], a run that returns has performed at most
    [max_iter + 1] steps, and none when [max_iter] is negative. *)
Theorem loop_steps_bounded fuel self Ykm T rho st st' :
  st_count st = 0%N -> fit_loop fuel self Ykm T rho st = Ok st' ->
  (st_count st')%:Z <= Num.max 0 (_max_iter self + 1).
Proof. by move=> count0 /fit_loop_count []; rewrite count0. Qed.

End FitterProperties.

(** ** The smoothing matrix *)

Section SmoothingMatrix.

Variable R : realFieldType.
Variable n : nat.
Variable K : numerics R n.

Notation vec := 'cV[R]_n.+1.
Notation mat := 'M[R]_n.+1.

Implicit Types (self : FrankFitter K) (dht : DiscreteHankelTransform R n).

Lemma smoothing_matrix_scale self :
  _build_smoothing_matrix self
  = _smooth self *: ((Delta K (F_DHT (base self)))^T
                     *m (dce K (F_DHT (base self))
                         *m Delta K (F_DHT (base self)))).
Proof.
by apply/matrixP => i k; rewrite /_build_smoothing_matrix mxE [RHS]mxE mulrC.
Qed.

Lemma dce_sym dht : (dce K dht)^T = dce K dht.
Proof.
apply/matrixP => i k; rewrite !mxE [k == i]eq_sym.
by case: eqP => [->|].
Qed.

Lemma smoothing_matrix_sym self :
  (_build_smoothing_matrix self)^T = _build_smoothing_matrix self.
Proof.
rewrite smoothing_matrix_scale linearZ /=; congr (_ *: _).
by rewrite !trmx_mul trmxK dce_sym mulmxA.
Qed.

(** The rows of the second-difference operator sum to zero. *)
Lemma Delta_boundary_row dht (i k : 'I_n.+1) :
  ~~ ((0 < i)%N && (i < n)%N) -> Delta K dht i k = 0.
Proof.
move=> boundary; rewrite mxE /Delta_data.
case: eqP => [eq_i|_].
  rewrite ifF //; apply: contraNF boundary.
  by rewrite -eq_i /= !ltnS.
case: eqP => [eq_i|_].
  by rewrite ifF //; apply: contraNF boundary; rewrite eq_i !ltnS.
case: eqP => [eq_k|//].
rewrite ifF //; apply: contraNF boundary; rewrite eq_k ltnS => ->.
by have := ltn_ord k; rewrite eq_k !ltnS.
Qed.

Lemma Delta_row_sum dht (i : 'I_n.+1) : \sum_k Delta K dht i k = 0.
Proof.
case interior: ((0 < i)%N && (i < n)%N); last first.
  by apply: big1 => k _; rewrite Delta_boundary_row ?interior.
case/andP: interior => i_gt0 lt_in.
have lt_im1 : (i.-1 < n.+1)%N by rewrite (leq_ltn_trans (leq_pred i)).
have lt_ip1 : (i.+1 < n.+1)%N by rewrite ltnS.
pose im1 := Ordinal lt_im1; pose ip1 := Ordinal lt_ip1.
have im1_ni : im1 != i.
  by rewrite -val_eqE /= -[X in _ != X](prednK i_gt0) neq_ltn ltnSn.
have ip1_ni : ip1 != i by rewrite -val_eqE /= neq_ltn ltnSn orbT.
have ip1_nm : ip1 != im1.
  by rewrite -val_eqE /= neq_ltn (leq_ltn_trans (leq_pred i)) ?orbT.
rewrite (bigD1 i) //= (bigD1 im1) //= (bigD1 ip1) /=;
  first by rewrite ip1_ni ip1_nm.
rewrite big1 ?addr0 => [k /andP [/andP [k_ni k_nm] k_np]|].
  rewrite mxE; move: k_ni k_nm k_np; rewrite -!val_eqE /=.
  move=> /negbTE k_ni; rewrite -eqSS (prednK i_gt0) => /negbTE k_nm.
  by move=> /negbTE k_np; rewrite k_nm k_ni k_np.
rewrite !mxE /= (prednK i_gt0) !eqxx.
rewrite !(gtn_eqF (ltnSn i)) (gtn_eqF (ltnW (ltnSn i.+1))) i_gt0 lt_ip1 /=.
rewrite ltnS i_gt0 !mul1r !invfM.
set x := (dc K dht i.-1)^-1; set y := (de K dht i.-1)^-1.
set z := (de K dht i)^-1.
by rewrite -mulrDr mulrC -mulrDr [y + z]addrC addNr mulr0.
Qed.

Lemma smoothing_matrix_const self (c : R) :
  _build_smoothing_matrix self *m const_mx c = 0 :> vec.
Proof.
rewrite smoothing_matrix_scale -scalemxAl -!mulmxA.
rewrite (_ : Delta K _ *m const_mx c = 0) ?mulmx0 ?scaler0 //.
apply/colP => i; rewrite mxE [RHS]mxE.
under eq_bigr => k _ do rewrite [const_mx _ _ _]mxE.
by rewrite -mulr_suml Delta_row_sum mul0r.
Qed.

(** X18: The smoothing matrix is symmetric, and it does not penalise a constant
    log-spectrum: it annihilates the constant vectors, so that each of its
    rows and columns sums to zero. *)
Theorem smoothing_matrix_sym_and_constants self (c : R) :
  (_build_smoothing_matrix self)^T = _build_smoothing_matrix self
  /\ _build_smoothing_matrix self *m const_mx c = 0 :> vec.
Proof.
by split; [exact: smoothing_matrix_sym | exact: smoothing_matrix_const].
Qed.

(** X19: With at most two collocation points there is no interior point, and
    with [w_smooth = 0] no weight: the smoothing matrix is zero. *)
Theorem smoothing_matrix_zero self :
  (n <= 1)%N \/ _smooth self = 0 -> _build_smoothing_matrix self = 0.
Proof.
rewrite smoothing_matrix_scale; case=> [n_le1|->]; last by rewrite scale0r.
rewrite (_ : dce K _ = 0) ?mul0mx ?mulmx0 ?scaler0 //.
apply/matrixP => i k; rewrite !mxE ifF //.
apply/negbTE; rewrite !negb_and -!leqNgt ltnS.
case: (posnP i) => [->|i_gt0]; first by rewrite orbT.
by rewrite (leq_trans n_le1 i_gt0) !orbT.
Qed.

End SmoothingMatrix.

(** ** The further properties at work on the examples *)

Lemma Dinv_pos_entry : Dinv_pos 0 0 = 2%:R.
Proof. by rewrite /Dinv_pos /Dinv_of !mxE addr0. Qed.

Lemma Dinv_neg_entry : Dinv_neg 0 0 = - 2%:R.
Proof. by rewrite /Dinv_neg /Dinv_of !mxE addr0. Qed.

Lemma cho_factor_Dinv_pos : cho_factor K1 Dinv_pos = Ok (Dinv_pos 0 0).
Proof.
rewrite /cho_factor /= /cho_factor_1 Dinv_pos_entry.
by have -> : (0 : rat) < 2%:R by vm_compute.
Qed.

Lemma cho_solve_1_solves (A : 'M[rat]_1) (k : nat) (b : 'M[rat]_(1, k)) :
  A 0 0 != 0 -> A *m cho_solve_1 (A 0 0) b = b.
Proof.
move=> A_n0; apply/matrixP => i j; rewrite !ord1 mxE big_ord1 !mxE.
by rewrite mulrCA divff // mulr1.
Qed.

Lemma cholesky_path_witness :
  exists self C,
    [/\ HankelRegressor_init K1 dht1 (const_mx 2%:R) (const_mx 1) None 0
          = Ok self,
        result_map fst (covariance self) = Ok (Array2 C),
        Dinv_of dht1 (const_mx 2%:R) None *m mean self = const_mx 1,
        Dinv_of dht1 (const_mx 2%:R) None *m C = 1%:M
        /\ C *m Dinv_of dht1 (const_mx 2%:R) None = 1%:M
      & mean self = C *m const_mx 1
        /\ ((const_mx 2%:R : 'M[rat]_1)^T = const_mx 2%:R -> C^T = C)].
Proof.
apply: (@cholesky_path_inverts_precision rat 0 K1 dht1 (const_mx 2%:R)
          (const_mx 1) None 0 (Dinv_pos 0 0) cho_factor_Dinv_pos).
move=> k b; apply: cho_solve_1_solves.
by rewrite Dinv_pos_entry; vm_compute.
Defined.

Lemma cho_factor_Dinv_neg : cho_factor K1 Dinv_neg = Raise LinAlgError.
Proof.
rewrite /cho_factor /= /cho_factor_1 Dinv_neg_entry.
by have -> : (0 : rat) < - 2%:R = false by vm_compute.
Qed.

Lemma svd_Dinv_neg :
  [/\ Dinv_neg = U_neg *m diag_mx s_neg^T *m V_neg, U_neg *m U_neg^T = 1%:M
    & V_neg *m V_neg^T = 1%:M].
Proof.
split; apply: mx11P; rewrite /U_neg /s_neg /V_neg ?Dinv_neg_entry;
  by do !scal; rewrite ?Dinv_neg_entry; rat_eq.
Qed.

Lemma svd_path_mean_witness :
  exists2 self,
    HankelRegressor_init K1 dht1 (const_mx (- 2%:R)) (const_mx 1) None 0
      = Ok self &
    Dinv_neg *m mean self
      = U_neg *m diag_mx (\row_i (if 0 < s_neg i 0 then 1 else 0))
          *m U_neg^T *m const_mx 1
    /\ ((forall i, 0 < s_neg i 0) -> Dinv_neg *m mean self = const_mx 1).
Proof.
have [eq_D UU VV] := svd_Dinv_neg.
exact: (@svd_path_mean_solves rat 0 K1 dht1 (const_mx (- 2%:R)) (const_mx 1)
          None 0 U_neg V_neg s_neg cho_factor_Dinv_neg erefl eq_D UU VV).
Defined.

Lemma svd_path_Dsolve_witness :
  exists2 X : 'M[rat]_1, Dsolve reg_svd (Array2 1%:M) = Ok (Array2 X) &
    forall k,
      col k X = (const_mx 0 : 'cV[rat]_1) k 0
                *: ((const_mx 1 : 'M[rat]_1)^T
                    *m ((const_mx 1 : 'M[rat]_1)^T *m col k 1%:M))
      /\ Dsolve reg_svd (Array1 (col k 1%:M))
         = Ok (Array1 ((const_mx 1 : 'M[rat]_1)^T
                       *m (diag_mx (const_mx 0 : 'cV[rat]_1)^T
                           *m ((const_mx 1 : 'M[rat]_1)^T *m col k 1%:M)))).
Proof.
exact: (@svd_path_Dsolve_scales_columns rat 0 K1 reg_svd (const_mx 1)
          (const_mx 1) (const_mx 0) 1%:M erefl erefl).
Defined.

Lemma covariance_is_cached_witness :
  [/\ covariance reg_chol_cached = Ok (cov_chol, reg_chol_cached),
      _cov reg_chol_cached = Some cov_chol,
      mean reg_chol_cached = mean reg_chol
    & forall b, Dsolve reg_chol_cached b = Dsolve reg_chol b].
Proof.
exact: (@covariance_is_cached rat 0 K1 reg_chol cov_chol reg_chol_cached
          erefl).
Defined.

Lemma built_M_sym_psd_witness :
  exists bs M,
    [/\ _build_matrices 3 (fitter1 true 1) [:: 1; 2%:R; 3%:R]
          [:: 1; 0; 2%:R] (PyArray [:: 1; 1; 2%:R]) = Ok bs,
        F_M bs = Some M, M^T = M
      & all (fun c : rat => 0 <= c)
          (weights_array [:: 1; 0; 2%:R] (PyArray [:: 1; 1; 2%:R])) ->
        forall x : 'cV[rat]_1, 0 <= quad_form M x].
Proof.
exact: (@built_M_sym_psd rat 0 K1 3 (fitter1 true 1) [:: 1; 2%:R; 3%:R]
          [:: 1; 0; 2%:R] (PyArray [:: 1; 1; 2%:R]) erefl isT isT isT).
Defined.

Lemma short_q_witness :
  _build_matrices 2 (fitter1 true 10000) [:: 1] [:: 1; 0] (PyFloat 1)
  = Raise ValueError.
Proof.
exact: (@short_q_raises_ValueError rat 0 K1 2 (fitter1 true 10000) [:: 1]
          [:: 1; 0] (PyFloat 1) isT isT isT isT).
Defined.

Lemma unblocked_trailing_q_witness :
  _build_matrices 2 (fitter1 false 1) [:: 1; 2%:R; 3%:R] [:: 1; 0] (PyFloat 1)
  = Ok (built (fitter1 false 1)
          (contrib_M dht1 (take 2 [:: 1; 2%:R; 3%:R])
             (weights_array [:: 1; 0] (PyFloat 1)))
          (contrib_j dht1 (take 2 [:: 1; 2%:R; 3%:R])
             (weights_array [:: 1; 0] (PyFloat 1)) [:: 1; 0])
          (noise_normalization K1 (weights_array [:: 1; 0] (PyFloat 1))
             [:: 1; 0])).
Proof.
exact: (@unblocked_ignores_trailing_q rat 0 K1 2 (fitter1 false 1)
          [:: 1; 2%:R; 3%:R] [:: 1; 0] (PyFloat 1) isT isT isT isT).
Defined.

Lemma weights_of_wrong_length_witness :
  _build_matrices 2 (fitter1 true 10000) [:: 1; 2%:R] [:: 1; 0]
    (PyArray [:: 1; 2%:R; 3%:R])
  = Raise ValueError.
Proof.
exact: (@weights_of_wrong_length_raise rat 0 K1 2 (fitter1 true 10000)
          [:: 1; 2%:R] [:: 1; 0] [:: 1; 2%:R; 3%:R] isT isT isT).
Defined.

Lemma fit_stores_MAP_witness :
  exists pi ps_cov,
    [/\ MAP_solution (result1 tolA max_iterA) = Ok sol1,
        MAP_spectrum (result1 tolA max_iterA) = Ok pi,
        MAP_spectrum_covariance (result1 tolA max_iterA) = Ok ps_cov,
        power_spectrum sol1 = Some pi
      & fit_powerspectrum (result1 tolA max_iterA) pi = Ok sol1].
Proof.
exact: (@fit_stores_MAP_solution rat 0 K1 2 (frank1 tolA max_iterA) q1 V1 w1
          sol1 (result1 tolA max_iterA) (fit1 loopA)).
Defined.

Lemma fit_terminates_witness :
  FrankFitter_fit 2 (frank1 tolB max_iterB) q1 V1 w1 <> OutOfFuel.
Proof.
exact: (@FrankFitter_fit_terminates rat 0 K1 2 (frank1 tolB max_iterB) q1 V1
          w1 0 erefl isT isT erefl isT isT).
Defined.

Lemma tolB_lt1 : _tol (frank1 tolB max_iterB) < 1.
Proof. by rewrite /=; vm_compute. Qed.

Lemma st0_1_nonzero : st_pi st0_1 0 0 != 0.
Proof. by rewrite /= mxE oner_neq0. Qed.

Lemma first_test_witness : (0 < st_count st1_1)%N.
Proof.
exact: (@first_test_forces_a_step rat 0 K1 2 (frank1 tolB max_iterB) q1 V1 w1
          (self1 tolB max_iterB) st0_1 (const_mx 1)
          (1%:M + Tij1 tolB max_iterB) 1 st1_1 0
          (prologue1 tolB max_iterB) tolB_lt1 isT st0_1_nonzero loopB).
Defined.

Lemma tol_one_skips_loop_witness :
  [/\ forall Ykm T rho, fit_loop 2 (self1 1 250) Ykm T rho st0_1 = Ok st0_1,
      FrankFitter_fit 2 (frank1 1 250) q1 V1 w1
      = (ps_cov <- _ps_covariance (self1 1 250) (st_fit st0_1)
                     (_build_smoothing_matrix (self1 1 250)) 1 ;;
         Ok (st_fit st0_1,
             set_fit_result (self1 1 250) (base (self1 1 250)) (st_fit st0_1)
               (st_pi st0_1) ps_cov))
    & forall sol f,
        FrankFitter_fit 2 (frank1 1 250) q1 V1 w1 = Ok (sol, f) ->
        [/\ sol = st_fit st0_1, MAP_solution f = Ok (st_fit st0_1)
          & MAP_spectrum f = Ok (st_pi st0_1)]].
Proof.
exact: (@tolerance_at_least_one_skips_loop rat 0 K1 2 (frank1 1 250) q1 V1 w1
          (self1 1 250) st0_1 (prologue1 1 250) (lexx 1)).
Defined.

Lemma smoothing_matrix_zero_witness :
  _build_smoothing_matrix (frank1 tolA max_iterA) = 0.
Proof.
exact: (@smoothing_matrix_zero rat 0 K1 (frank1 tolA max_iterA)
          (or_introl isT)).
Defined.

Lemma joint_log_likelihood_witness :
  exists2 self,
    HankelRegressor_init K1 dht1 (const_mx 2%:R) (const_mx 1) None 0
      = Ok self &
    log_likelihood self (Some (mean self)) = Ok (0 + 0).
Proof.
apply: (@joint_log_likelihood_at_mean rat 0 K1 dht1 (const_mx 2%:R)
          (const_mx 1) None 0 (Dinv_pos 0 0) cho_factor_Dinv_pos).
move=> k b; apply: cho_solve_1_solves.
by rewrite Dinv_pos_entry; vm_compute.
Defined.

Lemma loop_steps_bounded_witness :
  (st_count st1_1)%:Z <= Num.max 0 (_max_iter (self1 tolB max_iterB) + 1).
Proof.
exact: (@loop_steps_bounded rat 0 K1 2 (self1 tolB max_iterB) (const_mx 1)
          (1%:M + Tij1 tolB max_iterB) 1 st0_1 st1_1 erefl loopB).
Defined.




